(** * Doctor finder: record normalizer, filter state and query engine

    A shallow embedding of [src/hooks/useDoctorFinder.ts], of the
    components that use it, and of the properties its specification
    states about it.

    Conventions of the embedding.
    - A JavaScript string is the sequence of its UTF-16 code units
      ([jsstring]); [js "..."] writes an ASCII literal.
    - A JavaScript [number] is an IEEE double.  The program only ever
      builds numbers by [parseInt] on decimal digits and by one
      subtraction, so the finite ones have integer values: [Fin z] is the
      double of value [z].  [parseInt] and the subtraction round their
      exact result to the nearest double ([round_double]: ties go to the
      even significand, and the result is infinite from 2^1024 - 2^970
      on); below 2^53, so for every digit run of at most fifteen digits
      ([dec_value_safe]), nothing is rounded.  The two zeros are not told
      apart: the program never divides, and shows and compares both as 0.
    - [Array.prototype.sort] is the stable sort of ECMAScript 2019, with a
      comparator result of NaN read as +0 (CompareArrayElements).
    - [URLSearchParams] is its list of (name, value) pairs.  Names and
      values are scalar value strings: what [set] and [append] are given
      goes through [toUSVString], which replaces every lone surrogate by
      U+FFFD.  The textual query string (percent-encoding) is the
      browser's and is not modelled.
    - A JavaScript [Set] is the sequence of its members in insertion
      order. *)

From HB Require Import structures.
From Stdlib Require Import ZArith NArith Lia String Ascii.
Set Warnings "-notation-overridden,-redundant-canonical-projection".
Set Warnings "-rewrite-rw".
From mathcomp Require Import ssreflect ssrfun ssrbool eqtype ssrnat seq path.

Set Implicit Arguments.
Unset Strict Implicit.
Unset Printing Implicit Defensive.

(** ** Base types *)

HB.instance Definition _ := hasDecEq.Build Z Z.eqb_spec.

(** UTF-16 code units and strings. *)
Definition codeunit := N.
Definition jsstring := seq codeunit.

Definition js (s : string) : jsstring :=
  [seq N_of_ascii a | a <- list_ascii_of_string s].

(** [/[0-9]/] and [/\d/] (no unicode flag): the ten ASCII digits. *)
Definition is_digit (c : codeunit) : bool := (48 <=? c)%num && (c <=? 57)%num.

Definition dot : codeunit := 46%num.
Definition rupee : codeunit := 8377%num.   (* U+20B9, the rupee sign *)
Definition plus_sign : codeunit := 43%num.
Definition minus_sign : codeunit := 45%num.

(** WhiteSpace and LineTerminator of ECMAScript, the code units that
    [String.prototype.trim] and [parseInt] skip. *)
Definition is_whitespace (c : codeunit) : bool :=
  (c \in [:: 9; 10; 11; 12; 13; 32; 160; 5760; 8232; 8233; 8239; 8287;
             12288; 65279]%num)
  || ((8192 <=? c)%num && (c <=? 8202)%num).

(** [number]: the values of the JavaScript Number type that occur here. *)
Inductive number : Type :=
| Fin (z : Z)
| PInf
| NInf
| NaN.

Definition number_code (x : number) : option Z + bool :=
  match x with
  | Fin z => inl (Some z)
  | NaN => inl None
  | PInf => inr true
  | NInf => inr false
  end.

Definition number_decode (c : option Z + bool) : number :=
  match c with
  | inl (Some z) => Fin z
  | inl None => NaN
  | inr true => PInf
  | inr false => NInf
  end.

Lemma number_codeK : cancel number_code number_decode.
Proof. by case. Qed.

HB.instance Definition _ := Equality.copy number (can_type number_codeK).

Definition isNaN (x : number) : bool := if x is NaN then true else false.

(** The integer with at most 53 significant bits nearest to the natural
    number [a], ties to the even one: with [e] the number of bits beyond
    the 53 leading ones, [a] is [q * 2^e + r], and the result is [q * 2^e]
    or [(q + 1) * 2^e]. *)
Definition round_magnitude (a : Z) : Z :=
  let e := Z.max 0 (Z.log2 a - 52) in
  let q := (a / 2 ^ e)%Z in
  let r := (a mod 2 ^ e)%Z in
  let half := (2 ^ (e - 1))%Z in
  let up := if (e =? 0)%Z then false
            else (half <? r)%Z || ((r =? half)%Z && Z.odd q) in
  ((if up then q + 1 else q) * 2 ^ e)%Z.

(** The double nearest to the integer [z], which is the number that
    [parseInt] and the subtraction return for the exact result [z]: [z]
    itself below 2^53, and the infinity of its sign when the rounded
    magnitude reaches 2^1024. *)
Definition round_double (z : Z) : number :=
  let v := round_magnitude (Z.abs z) in
  if (2 ^ 1024 <=? v)%Z then (if (z <? 0)%Z then NInf else PInf)
  else Fin (if (z <? 0)%Z then (- v)%Z else v).

Arguments round_double : simpl never.

(** [a - b] on numbers. *)
Definition num_sub (a b : number) : number :=
  match a, b with
  | NaN, _ | _, NaN => NaN
  | Fin x, Fin y => round_double (x - y)
  | Fin _, PInf => NInf
  | Fin _, NInf => PInf
  | PInf, PInf => NaN
  | PInf, _ => PInf
  | NInf, NInf => NaN
  | NInf, _ => NInf
  end.

(** [x !== 0] *)
Definition num_nonzero (x : number) : bool :=
  if x is Fin z then z != 0%Z else true.

(** [x > 0]; false on NaN. *)
Definition num_pos (x : number) : bool :=
  match x with
  | Fin z => (0 <? z)%Z
  | PInf => true
  | _ => false
  end.

(** ** String primitives *)

(** The longest prefix of decimal digits. *)
Definition digit_prefix (s : jsstring) : jsstring :=
  take (find (predC is_digit) s) s.

(** [s] is empty or starts with a code unit that is not a digit. *)
Definition no_leading_digit (s : jsstring) : bool :=
  if s is c :: _ then ~~ is_digit c else true.

Definition digit_val (c : codeunit) : Z := (Z.of_N c - 48)%Z.

(** The integer a digit sequence denotes in radix 10; 0 for the empty one. *)
Definition dec_value (ds : jsstring) : Z :=
  foldl (fun acc c => (10 * acc + digit_val c)%Z) 0%Z ds.

(** [parseInt(s, 10)]: skip leading white space, read an optional sign,
    then the longest run of digits; NaN when that run is empty, else the
    double nearest to the integer the run writes.  (The standard lets an
    implementation read the digits after the twentieth as zeros; the
    engines in use round the whole run, as is done here.) *)
Definition parseInt10 (s : jsstring) : number :=
  let S := drop (find (predC is_whitespace) s) s in
  let sign := if S is c :: _ then (if c == minus_sign then (-1)%Z else 1%Z)
              else 1%Z in
  let S' := if S is c :: r
            then (if (c == plus_sign) || (c == minus_sign) then r else S)
            else S in
  let Zs := digit_prefix S' in
  if Zs is [::] then NaN else round_double (sign * dec_value Zs).

(** [s.match(/\d+/)]: the leftmost, longest run of digits, [None] for
    [null]. *)
Definition match_digits (s : jsstring) : option jsstring :=
  if has is_digit s then Some (digit_prefix (drop (find is_digit s) s))
  else None.

(** ** Record normalizer *)

Definition parseFee (feeString : jsstring) : number :=
  if feeString is [::] then PInf
  else
    let numberString := [seq c <- feeString | is_digit c || (c == dot)] in
    let fee := parseInt10 numberString in
    if isNaN fee then PInf else fee.

Definition parseExperience (expString : jsstring) : number :=
  if expString is [::] then Fin 0
  else
    let exp := if match_digits expString is Some m then parseInt10 m
               else Fin 0 in
    if isNaN exp then Fin 0 else exp.

(** [RawDoctorData]: a record as the API sends it.  An optional field
    ([f?: T]) is an [option]; [photo?: string | null] has the two absent
    forms [None] (undefined) and [Some None] (null). *)
Record RawAddress : Type := mkRawAddress {
  raw_locality : option jsstring;
  raw_city : option jsstring;
  raw_address_line1 : option jsstring;
  raw_location : option jsstring;
  raw_logo_url : option jsstring
}.

Record RawClinic : Type := mkRawClinic {
  raw_clinic_name : jsstring;
  raw_clinic_address : option RawAddress
}.

Record RawDoctorData : Type := mkRawDoctorData {
  raw_id : jsstring;
  raw_name : jsstring;
  raw_name_initials : option jsstring;
  raw_photo : option (option jsstring);
  raw_doctor_introduction : option jsstring;
  raw_specialities : seq jsstring;     (* the [name] of each wrapper *)
  raw_fees : jsstring;
  raw_experience : jsstring;
  raw_languages : option (seq jsstring);
  raw_clinic : option RawClinic;
  raw_video_consult : bool;
  raw_in_clinic : bool
}.

(** [Doctor]: the canonical record. *)
Record Address : Type := mkAddress {
  locality : option jsstring;
  city : option jsstring;
  addressLine1 : option jsstring;
  logoUrl : option jsstring
}.

Record Doctor : Type := mkDoctor {
  id : jsstring;
  name : jsstring;
  initials : option jsstring;
  photo : option (option jsstring);
  introduction : option jsstring;
  specialityNames : seq jsstring;
  parsedFees : number;
  parsedExperience : number;
  consultationModes : seq jsstring;
  video_consult : bool;
  in_clinic : bool;
  languages : option (seq jsstring);
  clinicName : option jsstring;
  address : option Address
}.

Definition address_code (a : Address) :=
  (locality a, city a, addressLine1 a, logoUrl a).

Definition address_decode
    (c : option jsstring * option jsstring * option jsstring * option jsstring)
    : Address :=
  let: (l, c, a, u) := c in mkAddress l c a u.

Lemma address_codeK : cancel address_code address_decode.
Proof. by case. Qed.

HB.instance Definition _ := Equality.copy Address (can_type address_codeK).

Definition doctor_code (d : Doctor) :=
  ((id d, name d, initials d, photo d, introduction d),
   (specialityNames d, parsedFees d, parsedExperience d, consultationModes d),
   (video_consult d, in_clinic d, languages d, clinicName d, address d)).

Definition doctor_decode
    (c : (jsstring * jsstring * option jsstring * option (option jsstring)
          * option jsstring)
         * (seq jsstring * number * number * seq jsstring)
         * (bool * bool * option (seq jsstring) * option jsstring
            * option Address)) : Doctor :=
  let: ((i, n, ini, ph, intro), (sp, f, e, m), (v, c, l, cn, a)) := c in
  mkDoctor i n ini ph intro sp f e m v c l cn a.

Lemma doctor_codeK : cancel doctor_code doctor_decode.
Proof. by case. Qed.

HB.instance Definition _ := Equality.copy Doctor (can_type doctor_codeK).

(** The two consultation modes, as the strings the program compares. *)
Definition VideoConsult : jsstring := js "Video Consult".
Definition InClinic : jsstring := js "In Clinic".

(** The body of [rawData.map(...)] in [fetchData]. *)
Definition processDoctor (rawDoc : RawDoctorData) : Doctor :=
  let modes :=
    (if raw_video_consult rawDoc then [:: VideoConsult] else [::])
    ++ (if raw_in_clinic rawDoc then [:: InClinic] else [::]) in
  let clinicName := omap raw_clinic_name (raw_clinic rawDoc) in
  let address :=
    if raw_clinic rawDoc is Some c then
      omap (fun a => mkAddress (raw_locality a) (raw_city a)
                               (raw_address_line1 a) (raw_logo_url a))
           (raw_clinic_address c)
    else None in
  {| id := raw_id rawDoc;
     name := raw_name rawDoc;
     initials := raw_name_initials rawDoc;
     photo := raw_photo rawDoc;
     introduction := raw_doctor_introduction rawDoc;
     specialityNames := raw_specialities rawDoc;
     parsedFees := parseFee (raw_fees rawDoc);
     parsedExperience := parseExperience (raw_experience rawDoc);
     consultationModes := modes;
     video_consult := raw_video_consult rawDoc;
     in_clinic := raw_in_clinic rawDoc;
     languages := raw_languages rawDoc;
     clinicName := clinicName;
     address := address |}.

Definition processedDoctors (rawData : seq RawDoctorData) : seq Doctor :=
  [seq processDoctor rawDoc | rawDoc <- rawData].

(** ** Filter state and URL synchronization *)

(** The surrogate code units of UTF-16. *)
Definition is_high_surrogate (c : codeunit) : bool :=
  (55296 <=? c)%num && (c <=? 56319)%num.         (* D800-DBFF *)
Definition is_low_surrogate (c : codeunit) : bool :=
  (56320 <=? c)%num && (c <=? 57343)%num.         (* DC00-DFFF *)

Definition replacement_character : codeunit := 65533%num.   (* U+FFFD *)

(** The conversion to a USVString that Web IDL applies to the arguments
    of [URLSearchParams.set] and [append]: a high surrogate followed by a
    low one is kept, every other surrogate becomes U+FFFD. *)
Fixpoint toUSVString (s : jsstring) : jsstring :=
  match s with
  | [::] => [::]
  | c :: r =>
      if is_high_surrogate c then
        match r with
        | d :: r' =>
            if is_low_surrogate d then c :: d :: toUSVString r'
            else replacement_character :: toUSVString r
        | [::] => [:: replacement_character]
        end
      else if is_low_surrogate c then replacement_character :: toUSVString r
      else c :: toUSVString r
  end.

(** [s.isWellFormed()]: no lone surrogate. *)
Definition isWellFormed (s : jsstring) : bool := toUSVString s == s.

(** [URLSearchParams]: the list of (name, value) pairs, with the four
    operations of the URL standard that the program calls. *)
Definition URLSearchParams := seq (jsstring * jsstring).

Definition usp_get (key : jsstring) (params : URLSearchParams)
    : option jsstring :=
  if [seq kv <- params | kv.1 == key] is kv :: _ then Some kv.2 else None.

Definition usp_getAll (key : jsstring) (params : URLSearchParams)
    : seq jsstring :=
  [seq kv.2 | kv <- params & kv.1 == key].

Definition usp_append (key value : jsstring) (params : URLSearchParams)
    : URLSearchParams :=
  rcons params (toUSVString key, toUSVString value).

(** The first pair named [key] takes the value, the others are removed. *)
Fixpoint usp_replace (key value : jsstring) (params : URLSearchParams)
    : URLSearchParams :=
  if params is kv :: rest then
    if kv.1 == key then (key, value) :: [seq p <- rest | p.1 != key]
    else kv :: usp_replace key value rest
  else [::].

Definition usp_set (key value : jsstring) (params : URLSearchParams)
    : URLSearchParams :=
  let name := toUSVString key in
  let value := toUSVString value in
  if has (fun kv => kv.1 == name) params then usp_replace name value params
  else rcons params (name, value).

Definition k_search : jsstring := js "search".
Definition k_consultation : jsstring := js "consultation".
Definition k_specialty : jsstring := js "specialty".
Definition k_sort : jsstring := js "sort".

(** A JavaScript [Set] of strings, members in insertion order. *)
Definition set_has (s : seq jsstring) (x : jsstring) : bool := x \in s.

Definition set_add (s : seq jsstring) (x : jsstring) : seq jsstring :=
  if x \in s then s else rcons s x.

Definition set_delete (s : seq jsstring) (x : jsstring) : seq jsstring :=
  [seq y <- s | y != x].

Definition new_Set (items : seq jsstring) : seq jsstring :=
  foldl set_add [::] items.

(** The four pieces of state of the hook.  The state holds what the
    program stores at run time: the consultation filter and the sort
    options are strings read from the URL without any check, so they are
    not restricted to the values their TypeScript types list. *)
Record FilterState : Type := mkFilterState {
  searchTerm : jsstring;
  consultationType : option jsstring;
  selectedSpecialties : seq jsstring;
  sortOptions : seq jsstring
}.

Definition state_code (st : FilterState) :=
  (searchTerm st, consultationType st, selectedSpecialties st, sortOptions st).

Definition state_decode
    (c : jsstring * option jsstring * seq jsstring * seq jsstring)
    : FilterState :=
  let: (s, c, sp, so) := c in mkFilterState s c sp so.

Lemma state_codeK : cancel state_code state_decode.
Proof. by case. Qed.

HB.instance Definition _ := Equality.copy FilterState (can_type state_codeK).

(** Truthiness of a string, and of a string that may be [null]: the empty
    string and [null] are falsy. *)
Definition str_truthy (s : jsstring) : bool := s != [::].

Definition truthy (x : option jsstring) : bool :=
  if x is Some s then str_truthy s else false.

(** The [useState] initializers: the state read from the URL on mount. *)
Definition initialState (searchParams : URLSearchParams) : FilterState :=
  {| searchTerm :=
       if truthy (usp_get k_search searchParams)
       then odflt [::] (usp_get k_search searchParams) else [::];
     consultationType :=
       if truthy (usp_get k_consultation searchParams)
       then usp_get k_consultation searchParams else None;
     selectedSpecialties := new_Set (usp_getAll k_specialty searchParams);
     sortOptions := usp_getAll k_sort searchParams |}.

(** The effect that rebuilds the query parameters from the state. *)
Definition urlOfState (st : FilterState) : URLSearchParams :=
  let params : URLSearchParams := [::] in
  let params :=
    if str_truthy (searchTerm st)
    then usp_set k_search (searchTerm st) params else params in
  let params :=
    if truthy (consultationType st)
    then usp_set k_consultation (odflt [::] (consultationType st)) params
    else params in
  let params :=
    foldl (fun p spec => usp_append k_specialty spec p) params
          (selectedSpecialties st) in
  foldl (fun p opt => usp_append k_sort opt p) params (sortOptions st).

(** The typed arguments of the handlers. *)
Inductive SortCriterion : Type := Fees | Experience.

Definition s_fees : jsstring := js "fees".
Definition s_experience : jsstring := js "experience".

Definition sortCriterion_str (c : SortCriterion) : jsstring :=
  match c with Fees => s_fees | Experience => s_experience end.

Inductive ConsultationMode : Type := VideoConsultMode | InClinicMode.

Definition consultationMode_str (m : ConsultationMode) : jsstring :=
  match m with VideoConsultMode => VideoConsult | InClinicMode => InClinic end.

(** [prev.indexOf(x)]: the first position of [x], or -1. *)
Definition indexOf (x : jsstring) (s : seq jsstring) : Z :=
  if x \in s then Z.of_nat (index x s) else (-1)%Z.

(** The updater inside [handleToggleSortOption]. *)
Definition toggleSortOption (option : jsstring) (prev : seq jsstring)
    : seq jsstring :=
  let currentIndex := indexOf option prev in
  if (-1 <? currentIndex)%Z then [seq item <- prev | item != option]
  else rcons prev option.

(** The updater inside [handleToggleSpecialty]. *)
Definition toggleSpecialty (specialty : jsstring) (prev : seq jsstring)
    : seq jsstring :=
  let newSet := prev in
  if set_has newSet specialty then set_delete newSet specialty
  else set_add newSet specialty.

Definition handleSetSearchTerm (term : jsstring) (st : FilterState) :=
  {| searchTerm := term;
     consultationType := consultationType st;
     selectedSpecialties := selectedSpecialties st;
     sortOptions := sortOptions st |}.

Definition handleSetConsultationType (type : option jsstring)
    (st : FilterState) :=
  {| searchTerm := searchTerm st;
     consultationType := type;
     selectedSpecialties := selectedSpecialties st;
     sortOptions := sortOptions st |}.

Definition handleToggleSpecialty (specialty : jsstring) (st : FilterState) :=
  {| searchTerm := searchTerm st;
     consultationType := consultationType st;
     selectedSpecialties := toggleSpecialty specialty (selectedSpecialties st);
     sortOptions := sortOptions st |}.

Definition handleToggleSortOption (option : jsstring) (st : FilterState) :=
  {| searchTerm := searchTerm st;
     consultationType := consultationType st;
     selectedSpecialties := selectedSpecialties st;
     sortOptions := toggleSortOption option (sortOptions st) |}.

Definition clearFilters (st : FilterState) : FilterState :=
  {| searchTerm := [::];
     consultationType := None;
     selectedSpecialties := new_Set [::];
     sortOptions := [::] |}.

(** What the presentation layer can ask for, with the argument types of
    [UseDoctorFinderReturn]. *)
Inductive Action : Type :=
| SetSearchTerm (term : jsstring)
| SetConsultationType (type : option ConsultationMode)
| ToggleSpecialty (specialty : jsstring)
| ToggleSortOption (option : SortCriterion)
| ClearFilters
| UpdateSearchTermFromSuggestion (term : jsstring).

Definition dispatch (st : FilterState) (a : Action) : FilterState :=
  match a with
  | SetSearchTerm term => handleSetSearchTerm term st
  | SetConsultationType type =>
      handleSetConsultationType (omap consultationMode_str type) st
  | ToggleSpecialty specialty => handleToggleSpecialty specialty st
  | ToggleSortOption option =>
      handleToggleSortOption (sortCriterion_str option) st
  | ClearFilters => clearFilters st
  | UpdateSearchTermFromSuggestion term => handleSetSearchTerm term st
  end.

(** The state after the page was opened at [searchParams] and the user
    did [actions]. *)
Definition stateAfter (searchParams : URLSearchParams) (actions : seq Action)
    : FilterState :=
  foldl dispatch (initialState searchParams) actions.

(** ** Query engine *)

Definition MAX_SUGGESTIONS : nat := 3.

(** [s.includes(t)]: [t] occurs in [s] as a run of consecutive code
    units. *)
Definition includes (s t : jsstring) : bool := infix t s.

(** [s.trim()]: white space removed at both ends. *)
Definition trimStart (s : jsstring) : jsstring :=
  drop (find (predC is_whitespace) s) s.

Definition trim (s : jsstring) : jsstring :=
  rev (trimStart (rev (trimStart s))).

(** [Array.prototype.sort(comparefn)]: the stable sort, where [a] stays
    before [b] unless [comparefn(a, b) > 0]; a NaN result counts as 0.
    For a consistent comparator every stable sort returns the same list
    ([stable_sort_unique] below), so the merge sort of the library stands
    for the sort of any engine. *)
Definition array_sort (T : Type) (comparefn : T -> T -> number) (s : seq T)
    : seq T :=
  sort (fun a b => ~~ num_pos (comparefn a b)) s.

(** The comparator passed to [doctors.sort]. *)
Fixpoint compareDoctors (sortOptions : seq jsstring) (a b : Doctor) : number :=
  if sortOptions is option :: rest then
    let comparison :=
      if option == s_fees then num_sub (parsedFees a) (parsedFees b)
      else if option == s_experience
           then num_sub (parsedExperience b) (parsedExperience a)
           else Fin 0 in
    if num_nonzero comparison then comparison
    else compareDoctors rest a b
  else Fin 0.

Section QueryEngine.

(** [String.prototype.toLowerCase], the Unicode lower-casing of the engine;
    the query engine is parametric in it. *)
Variable toLowerCase : jsstring -> jsstring.

Definition nameIncludes (lowerSearchTerm : jsstring) (doc : Doctor) : bool :=
  includes (toLowerCase (name doc)) lowerSearchTerm.

Definition filteredDoctors (allDoctors : seq Doctor) (st : FilterState)
    : seq Doctor :=
  let doctors := allDoctors in
  let doctors :=
    if str_truthy (searchTerm st) then
      let lowerSearchTerm := toLowerCase (searchTerm st) in
      [seq doc <- doctors | nameIncludes lowerSearchTerm doc]
    else doctors in
  let doctors :=
    if truthy (consultationType st) then
      [seq doc <- doctors |
        odflt [::] (consultationType st) \in consultationModes doc]
    else doctors in
  let doctors :=
    if 0 < size (selectedSpecialties st) then
      [seq doc <- doctors |
        has (fun specName => set_has (selectedSpecialties st) specName)
            (specialityNames doc)]
    else doctors in
  if 0 < size (sortOptions st)
  then array_sort (compareDoctors (sortOptions st)) doctors
  else doctors.

Definition suggestions (allDoctors : seq Doctor) (searchTerm : jsstring)
    : seq Doctor :=
  if trim searchTerm is [::] then [::]
  else
    let lowerSearchTerm := toLowerCase searchTerm in
    take MAX_SUGGESTIONS
         [seq doc <- allDoctors | nameIncludes lowerSearchTerm doc].

End QueryEngine.

(** Lower-casing restricted to the letters A-Z, on which every engine
    agrees; used to run the query engine on ASCII data. *)
Definition ascii_toLowerCase (s : jsstring) : jsstring :=
  [seq if (65 <=? c)%num && (c <=? 90)%num then (c + 32)%num else c | c <- s].

(** * The rest of the hook and the components that use it *)

(** ** Available specialties *)

(** [x < y] on strings: the order of their code units, which
    [Array.prototype.sort] uses when it is given no comparator. *)
Fixpoint str_lt (x y : jsstring) : bool :=
  match x, y with
  | _, [::] => false
  | [::], _ :: _ => true
  | c :: x', d :: y' => (c <? d)%num || ((c == d) && str_lt x' y')
  end.

(** The comparison [sort()] makes of two strings: -1, 1 or 0. *)
Definition default_compare (x y : jsstring) : number :=
  if str_lt x y then Fin (-1) else if str_lt y x then Fin 1 else Fin 0.

(** The [useMemo] that lists the specialties of the whole collection:
    every name is added to a [Set], and the members are sorted. *)
Definition availableSpecialties (allDoctors : seq Doctor) : seq jsstring :=
  let specialties :=
    foldl (fun set doc => foldl set_add set (specialityNames doc))
          (new_Set [::]) allDoctors in
  array_sort default_compare specialties.

(** [x] may stay before [y] in the sort without comparator. *)
Definition str_le (x y : jsstring) : bool :=
  ~~ num_pos (default_compare x y).

(** ** Helpers to state properties of the sort options *)

(** The [comparison] the comparator computes for one sort option. *)
Definition criterionDiff (option : jsstring) (a b : Doctor) : number :=
  if option == s_fees then num_sub (parsedFees a) (parsedFees b)
  else if option == s_experience
       then num_sub (parsedExperience b) (parsedExperience a)
       else Fin 0.

(** [st] with its sort options replaced. *)
Definition withSortOptions (options : seq jsstring) (st : FilterState)
    : FilterState :=
  {| searchTerm := searchTerm st;
     consultationType := consultationType st;
     selectedSpecialties := selectedSpecialties st;
     sortOptions := options |}.

(** ** Helpers to state properties of the filters *)

(** The test the three filters of [filteredDoctors] make together on one
    record, each one applied as the program decides to apply it. *)
Definition keptBy (toLowerCase : jsstring -> jsstring) (st : FilterState)
    (doc : Doctor) : bool :=
  [&& str_truthy (searchTerm st)
        ==> includes (toLowerCase (name doc)) (toLowerCase (searchTerm st)),
      truthy (consultationType st)
        ==> (odflt [::] (consultationType st) \in consultationModes doc)
    & (0 < size (selectedSpecialties st))
        ==> has (fun specName => set_has (selectedSpecialties st) specName)
                (specialityNames doc)].

(** [st] with its set of selected specialties replaced. *)
Definition withSpecialties (specialties : seq jsstring) (st : FilterState)
    : FilterState :=
  {| searchTerm := searchTerm st;
     consultationType := consultationType st;
     selectedSpecialties := specialties;
     sortOptions := sortOptions st |}.

(** ** Filter panel *)

(** [handleConsultationChange]: the radio button of [value] was clicked
    while the filter was [consultationType]; the argument passed on to
    [setConsultationType]. *)
Definition handleConsultationChange (value : ConsultationMode)
    (consultationType : option jsstring) : option ConsultationMode :=
  if Some (consultationMode_str value) == consultationType then None
  else Some value.

(** The radio button of [value] is the checked one. *)
Definition radioChecked (value : ConsultationMode) (st : FilterState) : bool :=
  consultationType st == Some (consultationMode_str value).

(** The click on a radio button, as an action on the state.  The buttons
    are controlled inputs with an [onChange] handler: a click on the
    checked one changes nothing, and React does not call the handler. *)
Definition radioClick (value : ConsultationMode) (st : FilterState)
    : FilterState :=
  if radioChecked value st then st
  else
    dispatch st
      (SetConsultationType
         (handleConsultationChange value (consultationType st))).


(** ** Test identifiers of the specialty checkboxes *)

Definition hyphen : codeunit := 45%num.
Definition slash : codeunit := 47%num.

(** [/[a-zA-Z0-9]/] *)
Definition is_alnum (c : codeunit) : bool :=
  [|| (97 <=? c)%num && (c <=? 122)%num, (65 <=? c)%num && (c <=? 90)%num
    | is_digit c].

(** [/[a-zA-Z0-9-]/]: the code units the second [replace] keeps. *)
Definition is_id_char (c : codeunit) : bool := is_alnum c || (c == hyphen).

(** [/[\s/]/]: white space or a slash. *)
Definition is_separator (c : codeunit) : bool :=
  is_whitespace c || (c == slash).

(** [s.replace(/[...]+/g, by_)] for a class [p] of code units: every
    maximal run of code units of the class is replaced by one copy of
    [by_].  [in_run] tells that the code unit before [s] was of the class,
    so that the run has been replaced already. *)
Fixpoint replace_runs (p : pred codeunit) (by_ : jsstring) (in_run : bool)
    (s : jsstring) : jsstring :=
  match s with
  | [::] => [::]
  | c :: s' =>
      if p c then
        (if in_run then [::] else by_) ++ replace_runs p by_ true s'
      else c :: replace_runs p by_ false s'
  end.

Definition test_id_prefix : jsstring := js "filter-specialty-".

Definition formatSpecialtyTestId (specialty : jsstring) : jsstring :=
  let formatted :=
    [seq c <- replace_runs is_separator [:: hyphen] false specialty
    | is_id_char c] in
  test_id_prefix ++ formatted.

(** ** Doctor card *)

(** The decimal digits of [n], the most significant first; [fuel] bounds
    their number. *)
Fixpoint digits_of (fuel : nat) (n : N) : jsstring :=
  match fuel with
  | 0 => [::]
  | fuel'.+1 =>
      (if (n <? 10)%num then [::] else digits_of fuel' (n / 10)%num)
      ++ [:: (48 + n mod 10)%num]
  end.

(** A number of [k] bits has at most [k] decimal digits. *)
Definition digits (n : N) : jsstring :=
  digits_of (N.to_nat (N.size n)).+1 n.

(** The digit string without its trailing zeros. *)
Definition significant (ds : jsstring) : jsstring :=
  rev (drop (find (predC (pred1 48%num)) (rev ds)) (rev ds)).

(** The integer [c] reads as the double of value [v]. *)
Definition reads_as (v c : Z) : bool := round_double c == Fin v.

(** The integer that Number::toString writes for the double of value
    [v > 0]: among the integers that read as [v], one with the fewest
    significant digits, and of these the one nearest to [v] (the even one
    of two at the same distance).  For [j] from [fuel] down, the two
    multiples of [10^j] around [v] are tried; [v] itself is left in the
    end. *)
Fixpoint shortest_from (v : Z) (j : nat) : Z :=
  match j with
  | 0 => v
  | j'.+1 =>
      let p := (10 ^ Z.of_nat j)%Z in
      let lo := (v / p * p)%Z in
      let hi := (lo + p)%Z in
      match reads_as v lo, reads_as v hi with
      | true, false => lo
      | false, true => hi
      | true, true =>
          if (v - lo <? hi - v)%Z then lo
          else if (hi - v <? v - lo)%Z then hi
          else if Z.even (lo / p) then lo else hi
      | false, false => shortest_from v j'
      end
  end.

Definition shortest (v : Z) : Z :=
  shortest_from v (size (digits (Z.to_N v))).

(** Number::toString in radix 10 for a double of non-negative integer
    value [v]: the digits of the integer chosen by [shortest] while there
    are at most 21 of them, and from there on its significant digits in
    exponent notation (1e+21). *)
Definition naturalToString (v : Z) : jsstring :=
  let ds := digits (Z.to_N (shortest v)) in
  if size ds <= 21 then ds
  else
    match significant ds with
    | [::] => ds
    | d :: frac =>
        (d :: (if frac is [::] then [::] else dot :: frac))
        ++ js "e+" ++ digits (N.of_nat (size ds).-1)
    end.

(** [String(x)], what a template literal and a JSX text node show of a
    number. *)
Definition numberToString (x : number) : jsstring :=
  match x with
  | Fin z =>
      if (z <? 0)%Z then minus_sign :: naturalToString (- z)%Z
      else naturalToString z
  | PInf => js "Infinity"
  | NInf => js "-Infinity"
  | NaN => js "NaN"
  end.

(** The text of the fee line of the card. *)
Definition feeText (doctor : Doctor) : jsstring :=
  if parsedFees doctor == PInf then js "N/A"
  else rupee :: 32%num :: numberToString (parsedFees doctor).

(** The [title] of the fee line. *)
Definition feeTitle (doctor : Doctor) : jsstring :=
  js "Consultation Fee: "
  ++ (if parsedFees doctor == PInf then js "Not Available"
      else rupee :: numberToString (parsedFees doctor)).

(** The text of the experience line, and its [title]. *)
Definition experienceText (doctor : Doctor) : jsstring :=
  numberToString (parsedExperience doctor) ++ js " years".

Definition experienceTitle (doctor : Doctor) : jsstring :=
  numberToString (parsedExperience doctor) ++ js " years of experience".

(** [Number.isSafeInteger(x)]: an integer below 2^53, which is a double
    and is read by no other integer; it is written with all its digits. *)
Definition isSafeInteger (x : number) : bool :=
  if x is Fin z then (Z.abs z <? 2 ^ 53)%Z else false.

(** ** Loading the collection *)

(** What a [catch] clause receives: an [Error] with its message, or any
    other value. *)
Inductive Thrown : Type :=
| ErrorWith (message : jsstring)
| NotAnError.

(** The response of the server: its [ok] flag and status, and what reading
    the body as typed JSON gives, the raw records or the exception thrown
    on the way. *)
Record Response : Type := mkResponse {
  ok : bool;
  status : N;
  json : Thrown + seq RawDoctorData
}.

(** What [await fetch(url)] does: it throws, or yields a response. *)
Inductive FetchResult : Type :=
| Rejected (e : Thrown)
| Resolved (response : Response).

(** The three state variables of the hook that the request sets. *)
Record LoadState : Type := mkLoadState {
  allDoctors : seq Doctor;
  isLoading : bool;
  error : option jsstring
}.

(** The state on mount, before the request settles. *)
Definition load_start : LoadState :=
  {| allDoctors := [::]; isLoading := true; error := None |}.

Definition msg_no_url : jsstring :=
  js "API URL (VITE_PUBLIC_DOCTOR_API) is not defined. "
  ++ js "Please check your environment variables.".
Definition msg_http : jsstring :=
  js "HTTP error fetching doctor data! status: ".
Definition msg_unknown : jsstring :=
  js "An unknown error occurred while fetching data.".

(** The [try] block of [fetchData]: the processed records, or what was
    thrown. *)
Definition fetchData_try (API_URL : option jsstring)
    (fetch : jsstring -> FetchResult) : Thrown + seq Doctor :=
  if ~~ truthy API_URL then inl (ErrorWith msg_no_url)
  else
    match fetch (odflt [::] API_URL) with
    | Rejected e => inl e
    | Resolved response =>
        if ~~ ok response then
          inl (ErrorWith
                 (msg_http
                  ++ numberToString (Fin (Z.of_N (status response)))))
        else
          match json response with
          | inl e => inl e
          | inr rawData => inr (processedDoctors rawData)
          end
    end.

(** [fetchData], from the state on mount to the state when it is done. *)
Definition fetchData (API_URL : option jsstring)
    (fetch : jsstring -> FetchResult) : LoadState :=
  let st := load_start in
  match fetchData_try API_URL fetch with
  | inr processed =>
      {| allDoctors := processed; isLoading := false; error := error st |}
  | inl e =>
      {| allDoctors := allDoctors st; isLoading := false;
         error := Some (if e is ErrorWith message then message
                        else msg_unknown) |}
  end.

(** ** The list pane *)

(** The four things [renderContent] shows. *)
Inductive View : Type :=
| LoadingView
| ErrorView (message : jsstring)
| EmptyView
| ListView (doctors : seq Doctor).

Definition renderContent (doctors : seq Doctor) (isLoading : bool)
    (error : option jsstring) : View :=
  if isLoading then LoadingView
  else if truthy error then ErrorView (odflt [::] error)
  else if size doctors == 0 then EmptyView
  else ListView doctors.

(** [isInitialDataLoading] of the layout. *)
Definition isInitialDataLoading (ld : LoadState) : bool :=
  isLoading ld && (size (allDoctors ld) == 0).

(** What the layout passes to the list. *)
Definition listPane (toLowerCase : jsstring -> jsstring) (ld : LoadState)
    (st : FilterState) : View :=
  renderContent (filteredDoctors toLowerCase (allDoctors ld) st)
                (isInitialDataLoading ld) (error ld).

(** ** The search box of the navbar *)

(** The state of the component.  [debounceTimer] is the value the pending
    timer will pass on, [None] when no timer is pending: none was set, or
    it was cleared, or it has fired ([clearTimeout] does nothing then). *)
Record NavbarState : Type := mkNavbarState {
  localSearchTerm : jsstring;
  showSuggestions : bool;
  activeSuggestionIndex : Z;
  debounceTimer : option jsstring
}.

(** The calls the component makes to its parent. *)
Inductive Call : Type :=
| OnSearchChange (term : jsstring)
| OnSearchSubmit (term : jsstring).

Definition key_Enter : jsstring := js "Enter".
Definition key_ArrowUp : jsstring := js "ArrowUp".
Definition key_ArrowDown : jsstring := js "ArrowDown".
Definition key_Escape : jsstring := js "Escape".

(** [s[i]], [None] for [undefined]. *)
Definition array_get (T : Type) (s : seq T) (i : Z) : option T :=
  if (0 <=? i)%Z then ohead (drop (Z.to_nat i) s) else None.

(** [suggestions.length] *)
Definition array_length (T : Type) (s : seq T) : Z := Z.of_nat (size s).

Definition handleInputChange (value : jsstring) (st : NavbarState)
    : NavbarState * seq Call :=
  ({| localSearchTerm := value;
      showSuggestions := 0 < size value;
      activeSuggestionIndex := (-1)%Z;
      debounceTimer := Some value |}, [::]).

Definition handleSuggestionClick (doctorName : jsstring) (st : NavbarState)
    : NavbarState * seq Call :=
  ({| localSearchTerm := doctorName;
      showSuggestions := false;
      activeSuggestionIndex := (-1)%Z;
      debounceTimer := None |}, [:: OnSearchSubmit doctorName]).

Definition setActiveSuggestionIndex (f : Z -> Z) (st : NavbarState)
    : NavbarState :=
  {| localSearchTerm := localSearchTerm st;
     showSuggestions := showSuggestions st;
     activeSuggestionIndex := f (activeSuggestionIndex st);
     debounceTimer := debounceTimer st |}.

Definition setShowSuggestions (b : bool) (st : NavbarState) : NavbarState :=
  {| localSearchTerm := localSearchTerm st;
     showSuggestions := b;
     activeSuggestionIndex := activeSuggestionIndex st;
     debounceTimer := debounceTimer st |}.

Definition handleKeyDown (suggestions : seq Doctor) (key : jsstring)
    (st : NavbarState) : NavbarState * seq Call :=
  if (key == key_Enter)
     && [|| ~~ showSuggestions st, array_length suggestions == 0%Z
          | activeSuggestionIndex st == (-1)%Z]
  then
    ({| localSearchTerm := localSearchTerm st;
        showSuggestions := false;
        activeSuggestionIndex := activeSuggestionIndex st;
        debounceTimer := None |}, [:: OnSearchSubmit (localSearchTerm st)])
  else if showSuggestions st && (0 <? array_length suggestions)%Z then
    if key == key_Enter then
      if (0 <=? activeSuggestionIndex st)%Z
         && (activeSuggestionIndex st <? array_length suggestions)%Z
      then
        if array_get suggestions (activeSuggestionIndex st) is Some doctor
        then handleSuggestionClick (name doctor) st
        else (st, [::])
      else (st, [::])
    else if key == key_ArrowUp then
      (setActiveSuggestionIndex
         (fun prev => if (prev <=? 0)%Z then (array_length suggestions - 1)%Z
                      else (prev - 1)%Z) st, [::])
    else if key == key_ArrowDown then
      (setActiveSuggestionIndex
         (fun prev => if (prev >=? array_length suggestions - 1)%Z then 0%Z
                      else (prev + 1)%Z) st, [::])
    else if key == key_Escape then
      (setActiveSuggestionIndex (fun=> (-1)%Z) (setShowSuggestions false st),
       [::])
    else (st, [::])
  else (st, [::]).

Definition handleInputFocus (suggestions : seq Doctor) (st : NavbarState)
    : NavbarState * seq Call :=
  if (0 < size (localSearchTerm st)) && (0 <? array_length suggestions)%Z
  then (setShowSuggestions true st, [::])
  else (st, [::]).

(** A mouse button goes down outside the search container. *)
Definition handleClickOutside (st : NavbarState) : NavbarState * seq Call :=
  (setShowSuggestions false st, [::]).

(** The delay has passed since the last timer was set: its callback. *)
Definition debounceElapsed (st : NavbarState) : NavbarState * seq Call :=
  if debounceTimer st is Some value then
    ({| localSearchTerm := localSearchTerm st;
        showSuggestions := showSuggestions st;
        activeSuggestionIndex := activeSuggestionIndex st;
        debounceTimer := None |}, [:: OnSearchChange value])
  else (st, [::]).

(** The effect that depends on [searchTerm]. *)
Definition syncSearchTerm (searchTerm : jsstring) (st : NavbarState)
    : NavbarState :=
  if localSearchTerm st != searchTerm then
    {| localSearchTerm := searchTerm;
       showSuggestions := showSuggestions st;
       activeSuggestionIndex := activeSuggestionIndex st;
       debounceTimer := debounceTimer st |}
  else st.

(** The state of the component when it is mounted. *)
Definition navbar_start (searchTerm : jsstring) : NavbarState :=
  {| localSearchTerm := searchTerm;
     showSuggestions := false;
     activeSuggestionIndex := (-1)%Z;
     debounceTimer := None |}.

(** ** The page: the hook and the components wired together *)

Section Page.

Variable toLowerCase : jsstring -> jsstring.
Variable API_URL : option jsstring.
Variable fetch : jsstring -> FetchResult.

Record Page : Type := mkPage {
  hookState : FilterState;
  load : LoadState;
  navbar : NavbarState
}.

(** What can happen on the page: the events of the search box, the clicks
    on the filter panel, and the end of the request. *)
Inductive Event : Type :=
| InputChange (value : jsstring)
| KeyDown (key : jsstring)
| InputFocus
| SuggestionClick (index : nat)
| MouseDownOutside
| DebounceElapsed
| ConsultationChange (value : ConsultationMode)
| SpecialtyChange (specialty : jsstring)
| SortClick (option : SortCriterion)
| ClearClick
| FetchSettled.

(** The page opened at [searchParams]. *)
Definition page_start (searchParams : URLSearchParams) : Page :=
  let st := initialState searchParams in
  {| hookState := st; load := load_start;
     navbar := navbar_start (searchTerm st) |}.

(** The suggestions the hook passes to the navbar. *)
Definition page_suggestions (p : Page) : seq Doctor :=
  suggestions toLowerCase (allDoctors (load p)) (searchTerm (hookState p)).

(** The props [onSearchChange] and [onSearchSubmit] of the navbar. *)
Definition applyCall (st : FilterState) (c : Call) : FilterState :=
  match c with
  | OnSearchChange term => dispatch st (SetSearchTerm term)
  | OnSearchSubmit term => dispatch st (UpdateSearchTermFromSuggestion term)
  end.

(** The handler of the search box that an event runs.  The box is a
    controlled input: [onChange] is called when its value is no longer
    the one it was given.  The suggestion list is on the page only while
    [showSuggestions] holds and there are suggestions. *)
Definition navbar_handler (p : Page) (e : Event) : NavbarState * seq Call :=
  let st := navbar p in
  match e with
  | InputChange value =>
      if value == localSearchTerm st then (st, [::])
      else handleInputChange value st
  | KeyDown key => handleKeyDown (page_suggestions p) key st
  | InputFocus => handleInputFocus (page_suggestions p) st
  | SuggestionClick index =>
      if showSuggestions st then
        if ohead (drop index (page_suggestions p)) is Some doctor
        then handleSuggestionClick (name doctor) st
        else (st, [::])
      else (st, [::])
  | MouseDownOutside => handleClickOutside st
  | DebounceElapsed => debounceElapsed st
  | _ => (st, [::])
  end.

(** The handler of the filter panel that an event runs.  There is a
    checkbox for each available specialty. *)
Definition panel_handler (p : Page) (e : Event) : FilterState :=
  let st := hookState p in
  match e with
  | ConsultationChange value => radioClick value st
  | SpecialtyChange specialty =>
      if specialty \in availableSpecialties (allDoctors (load p))
      then dispatch st (ToggleSpecialty specialty)
      else st
  | SortClick option => dispatch st (ToggleSortOption option)
  | ClearClick => dispatch st ClearFilters
  | _ => st
  end.

(** One event: its handlers run, then the page is rendered again, and the
    effect of the navbar runs when the search term of the hook has
    changed.  The request settles once. *)
Definition step (p : Page) (e : Event) : Page :=
  let: (nav, calls) := navbar_handler p e in
  let st := foldl applyCall (panel_handler p e) calls in
  let ld :=
    if e is FetchSettled then
      (if isLoading (load p) then fetchData API_URL fetch else load p)
    else load p in
  {| hookState := st; load := ld;
     navbar := if searchTerm st != searchTerm (hookState p)
               then syncSearchTerm (searchTerm st) nav
               else nav |}.

(** The page after it was opened at [searchParams] and [events]
    happened. *)
Definition pageAfter (searchParams : URLSearchParams) (events : seq Event)
    : Page :=
  foldl step (page_start searchParams) events.

End Page.

(** The input box shows the search term of the hook, or the value that a
    pending timer is about to pass on. *)
Definition synced (p : Page) : Prop :=
  match debounceTimer (navbar p) with
  | None => localSearchTerm (navbar p) = searchTerm (hookState p)
  | Some value =>
      localSearchTerm (navbar p) = value
      \/ localSearchTerm (navbar p) = searchTerm (hookState p)
  end.

(** * The vocabulary of the specification

    The notions the specification uses to state its properties, written
    after its words; the properties below compare them with the program. *)

(** The two-element domain of sort criteria. *)
Definition is_criterion (x : jsstring) : bool :=
  x \in [:: s_fees; s_experience].

(** The two facts about a state that the round trip needs: the
    consultation filter is never the empty string, and the specialty set
    has no repeated member. *)
Definition state_ok (st : FilterState) : bool :=
  (consultationType st != Some [::]) && uniq (selectedSpecialties st).

(** Every string of the state is well formed: it has no lone
    surrogate. *)
Definition well_formed_state (st : FilterState) : bool :=
  [&& isWellFormed (searchTerm st),
      (if consultationType st is Some c then isWellFormed c else true),
      all isWellFormed (selectedSpecialties st)
    & all isWellFormed (sortOptions st)].

(** The strings a handler is given are well formed. *)
Definition well_formed_action (a : Action) : bool :=
  match a with
  | SetSearchTerm term | UpdateSearchTermFromSuggestion term =>
      isWellFormed term
  | ToggleSpecialty specialty => isWellFormed specialty
  | _ => true
  end.

(** The state as the URL can hold it: every string as a scalar value
    string, and the specialties that coincide as such kept once. *)
Definition asWritten (st : FilterState) : FilterState :=
  {| searchTerm := toUSVString (searchTerm st);
     consultationType := omap toUSVString (consultationType st);
     selectedSpecialties :=
       new_Set [seq toUSVString x | x <- selectedSpecialties st];
     sortOptions := [seq toUSVString x | x <- sortOptions st] |}.

Section Matching.

Variable toLowerCase : jsstring -> jsstring.

(** The name of [doc] contains [searchTerm], letter case ignored. *)
Definition nameMatches (searchTerm : jsstring) (doc : Doctor) : bool :=
  includes (toLowerCase (name doc)) (toLowerCase searchTerm).

(** The three stages as the specification words them: name contains the
    search text, skipped when the text is empty; the record's modes contain
    the selected mode, skipped when none is selected; some specialty of the
    record is selected, skipped when no specialty is selected. *)
Definition passesFilters (st : FilterState) (doc : Doctor) : bool :=
  [&& (searchTerm st == [::]) || nameMatches (searchTerm st) doc,
      (if consultationType st is Some mode
       then mode \in consultationModes doc else true)
    & (selectedSpecialties st == [::])
      || has (fun spec => spec \in selectedSpecialties st)
             (specialityNames doc)].

End Matching.

(** The order the specification describes.  Numbers are compared as
    extended integers, the positive infinity above every integer and equal
    to itself. *)
Definition num_compare (a b : number) : comparison :=
  match a, b with
  | NaN, _ | _, NaN => Eq
  | Fin x, Fin y => (x ?= y)%Z
  | NInf, NInf | PInf, PInf => Eq
  | NInf, _ | _, PInf => Lt
  | _, NInf | PInf, _ => Gt
  end.

(** One criterion: fees ascending, experience descending. *)
Definition spec_criterion (c : SortCriterion) (a b : Doctor) : comparison :=
  match c with
  | Fees => num_compare (parsedFees a) (parsedFees b)
  | Experience => num_compare (parsedExperience b) (parsedExperience a)
  end.

(** The lexicographic chain: the first criterion that tells the two
    records apart decides. *)
Fixpoint spec_chain (criteria : seq SortCriterion) (a b : Doctor)
    : comparison :=
  if criteria is c :: rest then
    match spec_criterion c a b with
    | Eq => spec_chain rest a b
    | r => r
    end
  else Eq.

Definition spec_le (criteria : seq SortCriterion) (a b : Doctor) : bool :=
  if spec_chain criteria a b is Gt then false else true.

(** The sign the sort reads off a comparator result. *)
Definition num_sign (x : number) : comparison :=
  match x with
  | Fin z => (z ?= 0)%Z
  | PInf => Gt
  | NInf => Lt
  | NaN => Eq
  end.

(** Equal under every criterion of the chain. *)
Definition spec_tied (criteria : seq SortCriterion) (a b : Doctor) : bool :=
  if spec_chain criteria a b is Eq then true else false.

(** What the normalizer guarantees of the two parsed numbers. *)
Definition canonical (d : Doctor) : bool :=
  (if parsedFees d is Fin n then (0 <=? n)%Z else parsedFees d == PInf)
  && (if parsedExperience d is Fin n then (0 <=? n)%Z
      else parsedExperience d == PInf).

(** [a] may stay before [b]: the comparator's result is not positive. *)
Definition comesFirst (sortOptions : seq jsstring) (a b : Doctor) : bool :=
  ~~ num_pos (compareDoctors sortOptions a b).

(** The sort takes [a] and [b] as equal. *)
Definition tied (sortOptions : seq jsstring) (a b : Doctor) : bool :=
  comesFirst sortOptions a b && comesFirst sortOptions b a.

(** ** Sample data *)

(** A raw record with the given identifier, fee text and experience
    text. *)
Definition raw_example (i : jsstring) (fees experience : jsstring)
    : RawDoctorData :=
  {| raw_id := i; raw_name := js "Dr. " ++ i; raw_name_initials := None;
     raw_photo := None; raw_doctor_introduction := None;
     raw_specialities := [:: js "Dentist"];
     raw_fees := fees; raw_experience := experience;
     raw_languages := None; raw_clinic := None;
     raw_video_consult := true; raw_in_clinic := false |}.

(** Two raw records without a readable fee. *)
Definition rawA : RawDoctorData :=
  raw_example (js "A") (js "Free") (js "2 Years of experience").

Definition rawB : RawDoctorData :=
  raw_example (js "B") [::] (js "8 Years of experience").

(** Three raw records: the end-to-end scenario of the specification. *)
Definition raw1 : RawDoctorData :=
  raw_example (js "1") (js "on request") (js "10 Years of experience").
Definition raw2 : RawDoctorData :=
  raw_example (js "2") (rupee :: js " 300") (js "2 Years of experience").
Definition raw3 : RawDoctorData :=
  raw_example (js "3") (rupee :: js " 300") (js "8 Years of experience").

(** A canonical record with the given identifier, numbers and
    specialties, and a state with the given criteria toggled on in turn. *)
Definition doctor_example (i : jsstring) (fees experience : number)
    (specialities : seq jsstring) : Doctor :=
  {| id := i; name := js "Dr. " ++ i; initials := None; photo := None;
     introduction := None; specialityNames := specialities;
     parsedFees := fees; parsedExperience := experience;
     consultationModes := [:: VideoConsult];
     video_consult := true; in_clinic := false; languages := None;
     clinicName := None; address := None |}.

Definition withSort (criteria : seq SortCriterion) : FilterState :=
  stateAfter [::] [seq ToggleSortOption c | c <- criteria].

(** A server that answers with the three raw records, and the address it
    is asked at. *)
Definition sample_url : option jsstring := Some (js "https://example.org/doctors").

Definition sample_fetch (url : jsstring) : FetchResult :=
  Resolved {| ok := true; status := 200%num;
              json := inr [:: raw1; raw2; raw3] |}.

(** The page opened without parameters, on which [events] happen. *)
Definition sample_page (events : seq Event) : Page :=
  pageAfter ascii_toLowerCase sample_url sample_fetch [::] events.

(** * Properties *)

(** ** Characters and digit runs *)

Lemma is_digitP (c : codeunit) :
  reflect (48 <= c <= 57)%num (is_digit c).
Proof.
rewrite /is_digit; apply: (iffP andP).
- by case=> /N.leb_le ? /N.leb_le ?.
- by case=> ? ?; split; apply/N.leb_le.
Qed.

Lemma whitespace_not_digit (c : codeunit) :
  is_whitespace c -> ~~ is_digit c /\ c != dot.
Proof.
rewrite /is_whitespace => /orP [|/andP [/N.leb_le lo /N.leb_le hi]].
- by rewrite !inE; do !(case/orP; [by move/eqP-> |]); move/eqP->.
- split; first by apply/is_digitP; lia.
  by apply/eqP => e; move: lo; rewrite e /dot; lia.
Qed.

Lemma digit_not_sign (c : codeunit) :
  is_digit c || (c == dot) -> (c != plus_sign) && (c != minus_sign).
Proof.
case/orP => [/is_digitP [lo hi]|/eqP-> //].
by apply/andP; split; apply/eqP => e; move: lo hi;
  rewrite e /plus_sign /minus_sign; lia.
Qed.

Lemma digit_val_ge0 (c : codeunit) : is_digit c -> (0 <= digit_val c)%Z.
Proof. by move/is_digitP; rewrite /digit_val; lia. Qed.

Lemma digit_val_lt10 (c : codeunit) : is_digit c -> (digit_val c < 10)%Z.
Proof. by move/is_digitP; rewrite /digit_val; lia. Qed.

Lemma all_digit_prefix (s : jsstring) : all is_digit (digit_prefix s).
Proof.
rewrite /digit_prefix; elim: s => [|c s IH] //=.
by case dc: (is_digit c) => //=; rewrite dc.
Qed.

Lemma digit_prefix_all (s : jsstring) : all is_digit s -> digit_prefix s = s.
Proof.
rewrite /digit_prefix; elim: s => [|c s IH] //= /andP [-> /IH] /=.
by move=> ->.
Qed.

Lemma digit_prefix_cat (run post : jsstring) :
  all is_digit run -> no_leading_digit post ->
  digit_prefix (run ++ post) = run.
Proof.
rewrite /digit_prefix; elim: run => [|c run IH] /=.
- by move=> _; case: post => [|c post] //= ->.
- by case/andP=> -> /= dr dp; rewrite IH.
Qed.

Lemma digit_prefix_nil (s : jsstring) :
  (digit_prefix s == [::]) = no_leading_digit s.
Proof. by rewrite /digit_prefix; case: s => [|c s] //=; case: (is_digit c). Qed.

Lemma dec_value_rcons (ds : jsstring) (c : codeunit) :
  dec_value (rcons ds c) = (10 * dec_value ds + digit_val c)%Z.
Proof. by rewrite /dec_value -cats1 foldl_cat. Qed.

Lemma dec_value_ge0 (ds : jsstring) : all is_digit ds -> (0 <= dec_value ds)%Z.
Proof.
elim/last_ind: ds => [|ds c IH] //.
rewrite all_rcons dec_value_rcons => /andP [/digit_val_ge0 dc /IH].
by lia.
Qed.

Lemma dec_value_lt (ds : jsstring) :
  all is_digit ds -> (dec_value ds < 10 ^ Z.of_nat (size ds))%Z.
Proof.
elim/last_ind: ds => [|ds c IH] //.
rewrite all_rcons dec_value_rcons size_rcons Nat2Z.inj_succ.
have -> : (10 ^ Z.succ (Z.of_nat (size ds))
           = 10 * 10 ^ Z.of_nat (size ds))%Z.
  by apply: Z.pow_succ_r; apply: Nat2Z.is_nonneg.
move=> /andP [/digit_val_lt10 dc /IH]; move: (dec_value ds) (10 ^ _)%Z => v p.
by lia.
Qed.

(** A run of at most fifteen digits denotes an integer below 2^53, the
    range in which a double holds every integer exactly. *)
Lemma dec_value_safe (ds : jsstring) :
  all is_digit ds -> size ds <= 15 -> (0 <= dec_value ds < 2 ^ 53)%Z.
Proof.
move=> dd /leP le; split; first exact: dec_value_ge0.
apply: Z.lt_trans (dec_value_lt dd) _.
apply: (@Z.le_lt_trans _ (10 ^ 15)%Z); last by [].
by apply: Z.pow_le_mono_r => //; lia.
Qed.

(** ** Rounding to a double *)

Lemma round_magnitudeP (a : Z) :
  (0 <= a)%Z ->
  [/\ (0 < a -> 0 < round_magnitude a)%Z,
      (a < 2 ^ 53 -> round_magnitude a = a)%Z
    & (2 ^ 53 <= a -> 2 ^ 53 <= round_magnitude a)%Z].
Proof.
move=> a0; rewrite /round_magnitude.
set e := Z.max 0 _; set up := if (e =? 0)%Z then _ else _.
have e0 : (0 <= e)%Z by rewrite /e; lia.
have p0 : (0 < 2 ^ e)%Z by apply: Z.pow_pos_nonneg.
have small : (a < 2 ^ 53 -> e = 0)%Z.
  move=> lt; rewrite /e.
  have [->|apos] : (a = 0 \/ 0 < a)%Z by lia.
    by [].
  have : (Z.log2 a < 53)%Z by apply/(Z.log2_lt_pow2 _ _ apos).
  by lia.
have qle : (a / 2 ^ e <= (if up then a / 2 ^ e + 1 else a / 2 ^ e))%Z.
  by case: up; lia.
split.
- move=> apos.
  have le : (2 ^ e <= a)%Z.
    have [ls _] := Z.log2_spec a apos.
    apply: Z.le_trans ls; apply: Z.pow_le_mono_r; first by [].
    by rewrite /e; have := Z.log2_nonneg a; lia.
  have : (1 <= a / 2 ^ e)%Z.
    by apply: Z.div_le_lower_bound; lia.
  by move: (a / 2 ^ e)%Z qle p0 => q; move: (2 ^ e)%Z => p; case: up; nia.
- by move=> /small e0'; rewrite /up e0' /= Z.div_1_r; lia.
- move=> big.
  have apos : (0 < a)%Z by lia.
  have l53 : (53 <= Z.log2 a)%Z by apply/(Z.log2_le_pow2 _ _ apos).
  have eE : e = (Z.log2 a - 52)%Z by rewrite /e; lia.
  have [ls _] := Z.log2_spec a apos.
  have : (2 ^ 52 <= a / 2 ^ e)%Z.
    apply: Z.div_le_lower_bound => //.
    rewrite -Z.pow_add_r //.
    by have -> : (e + 52 = Z.log2 a)%Z by lia.
  have : (2 <= 2 ^ e)%Z.
    have -> : 2%Z = (2 ^ 1)%Z by [].
    by apply: Z.pow_le_mono_r; lia.
  move: (a / 2 ^ e)%Z qle => q; move: (2 ^ e)%Z => p.
  by case: up; nia.
Qed.

(** What rounding keeps: the sign, every integer below 2^53, and the
    fact of being at least 2^53. *)
Lemma round_doubleP (z : Z) :
  [\/ exists2 v, round_double z = Fin v
        & [/\ (0 < z -> 0 < v)%Z, (z < 0 -> v < 0)%Z, (z = 0 -> v = 0)%Z,
              (Z.abs z < 2 ^ 53 -> v = z)%Z
            & (2 ^ 53 <= Z.abs z -> 2 ^ 53 <= Z.abs v)%Z],
      round_double z = PInf /\ (2 ^ 53 <= z)%Z
    | round_double z = NInf /\ (z <= - 2 ^ 53)%Z].
Proof.
rewrite /round_double.
have [pos sm bg] := @round_magnitudeP (Z.abs z) (Z.abs_nonneg z).
move: (round_magnitude _) pos sm bg => v pos sm bg.
case: Z.leb_spec => inf.
  case: Z.ltb_spec => neg; [constructor 3|constructor 2]; split=> //.
  - have : ~ (Z.abs z < 2 ^ 53)%Z.
      by move=> lt; move: inf; rewrite (sm lt); lia.
    by lia.
  - have : ~ (Z.abs z < 2 ^ 53)%Z.
      by move=> lt; move: inf; rewrite (sm lt); lia.
    by lia.
constructor 1; case: Z.ltb_spec => neg.
- by exists (- v)%Z => //; split; lia.
- by exists v => //; split; lia.
Qed.

Lemma round_double_small (z : Z) :
  (Z.abs z < 2 ^ 53)%Z -> round_double z = Fin z.
Proof.
by move=> sm; case: (round_doubleP z) => [[v -> [_ _ _ /(_ sm) ->]]|[]|[]] //;
  lia.
Qed.

Lemma isNaN_round_double (z : Z) : isNaN (round_double z) = false.
Proof. by case: (round_doubleP z) => [[v ->]|[->]|[->]]. Qed.

Lemma num_pos_round_double (z : Z) : num_pos (round_double z) = (0 <? z)%Z.
Proof.
case: (round_doubleP z) => [[v -> [pz nz zz _ _]]|[-> pz]|[-> nz]] /=;
  by do ?case: Z.ltb_spec => //; lia.
Qed.

Lemma num_nonzero_round_double (z : Z) :
  num_nonzero (round_double z) = (z != 0%Z).
Proof.
case: (round_doubleP z) => [[v -> [pz nz zz _ _]]|[-> pz]|[-> nz]] /=;
  by do ?case: eqP => //; lia.
Qed.

Lemma round_double_nonneg (z : Z) :
  (0 <= z)%Z ->
  round_double z = PInf \/ exists2 n, (0 <= n)%Z & round_double z = Fin n.
Proof.
move=> z0; case: (round_doubleP z) => [[v -> [pz _ zz _ _]]|[-> _]|[_ nz]].
- by right; exists v => //; lia.
- by left.
- by lia.
Qed.

(** ** [parseInt] *)

(** On a string that starts with neither white space nor a sign,
    [parseInt] reads the leading digits. *)
Lemma parseInt10_plain (s : jsstring) :
  (if s is c :: _ then is_digit c || (c == dot) else true) ->
  parseInt10 s =
  if digit_prefix s is [::] then NaN
  else round_double (dec_value (digit_prefix s)).
Proof.
case: s => [|c s] //= dc; rewrite /parseInt10 /=.
have -> /= : is_whitespace c = false.
  apply/negP => /whitespace_not_digit [nd ne].
  by move: dc; rewrite (negbTE nd) (negbTE ne).
case/andP: (digit_not_sign dc) => /negbTE -> /negbTE -> /=.
case: (digit_prefix _) => [|d ds] //.
by case: (dec_value _).
Qed.

Lemma parseInt10_digits (s : jsstring) :
  all is_digit s -> s != [::] -> parseInt10 s = round_double (dec_value s).
Proof.
move=> ds ne; rewrite parseInt10_plain.
- by case: s ds {ne} => [|c s] //=; case/andP => ->.
- by rewrite digit_prefix_all //; case: s ne {ds}.
Qed.

(** ** Fee and experience parsing *)

Lemma parseFee_remainder (feeString : jsstring) :
  let remainder := [seq c <- feeString | is_digit c || (c == dot)] in
  parseFee feeString =
  if digit_prefix remainder is [::] then PInf
  else round_double (dec_value (digit_prefix remainder)).
Proof.
case: feeString => [|c s] //; rewrite /parseFee.
set r := [seq _ <- _ | _] => /=.
rewrite parseInt10_plain.
- have: all (fun c => is_digit c || (c == dot)) r by apply: filter_all.
  by case: r => [|d r] //= /andP [].
- by case: (digit_prefix r) => [|d ds] //; rewrite isNaN_round_double.
Qed.

Lemma parseFee_cases (feeString : jsstring) :
  parseFee feeString = PInf \/
  exists2 n, (0 <= n)%Z & parseFee feeString = Fin n.
Proof.
rewrite parseFee_remainder /=.
move: (all_digit_prefix [seq c <- feeString | is_digit c || (c == dot)]).
case: (digit_prefix _) => [|d ds] dd; first by left.
exact/round_double_nonneg/dec_value_ge0.
Qed.

Lemma match_digits_run (pre run post : jsstring) :
  ~~ has is_digit pre -> all is_digit run -> run != [::] ->
  no_leading_digit post ->
  match_digits (pre ++ run ++ post) = Some run.
Proof.
move=> npre drun ne dpost; rewrite /match_digits.
have hrun : has is_digit (run ++ post).
  by case: run drun ne {dpost} => [|c run] //= /andP [-> _].
have frun : find is_digit (run ++ post) = 0.
  by case: run drun ne {dpost hrun} => [|c run] //= /andP [-> _].
rewrite has_cat hrun orbT find_cat (negbTE npre) frun addn0 drop_size_cat //.
by rewrite digit_prefix_cat.
Qed.

Lemma match_digits_none (s : jsstring) :
  ~~ has is_digit s -> match_digits s = None.
Proof. by rewrite /match_digits => /negbTE ->. Qed.

Lemma take_find_hasN (T : Type) (p : pred T) (s : seq T) :
  ~~ has p (take (find p s) s).
Proof. by elim: s => [|c s IH] //=; case pc: (p c) => //=; rewrite pc. Qed.

Lemma size_digit_prefix (s : jsstring) :
  size (digit_prefix s) = find (predC is_digit) s.
Proof. by rewrite /digit_prefix size_takel // find_size. Qed.

Lemma after_digit_prefix (s : jsstring) :
  no_leading_digit (drop (size (digit_prefix s)) s).
Proof.
rewrite size_digit_prefix; elim: s => [|c s IH] //=.
by case dc: (is_digit c) => /=; rewrite ?dc.
Qed.

(** Every string with a digit splits around its first maximal digit run. *)
Lemma first_digit_run (s : jsstring) :
  has is_digit s ->
  exists pre run post,
    [/\ s = pre ++ run ++ post, ~~ has is_digit pre, all is_digit run,
        run != [::] & no_leading_digit post].
Proof.
move=> hs.
pose rest := drop (find is_digit s) s.
exists (take (find is_digit s) s), (digit_prefix rest),
       (drop (size (digit_prefix rest)) rest); split.
- rewrite -{1}(cat_take_drop (find is_digit s) s); congr (_ ++ _).
  by rewrite size_digit_prefix /digit_prefix cat_take_drop.
- exact: take_find_hasN.
- exact: all_digit_prefix.
- rewrite digit_prefix_nil /rest (drop_nth 0%num) ?negbK -?has_find //.
  exact: nth_find.
- exact: after_digit_prefix.
Qed.

(** A run of at most fifteen digits is read without rounding. *)
Lemma round_double_digits (ds : jsstring) :
  all is_digit ds -> size ds <= 15 ->
  round_double (dec_value ds) = Fin (dec_value ds).
Proof.
move=> dd le; have [lo hi] := dec_value_safe dd le.
by apply: round_double_small; lia.
Qed.

(** C7, the claim as stated, at two strings made of digits only.  The
    sixteen digits 9007199254740993 are not read as the integer they
    write, which no double holds, but as 9007199254740992; and four
    hundred nines are read as Infinity, the value that stands for a fee
    that does not parse. *)
Lemma parseFee_rounds :
  [/\ all is_digit (js "9007199254740993"),
      parseFee (js "9007199254740993") = Fin 9007199254740992,
      (parseFee (js "9007199254740993")
         == Fin (dec_value (js "9007199254740993"))) = false
    & all is_digit (nseq 400 57%num)
      /\ parseFee (nseq 400 57%num) = PInf].
Proof. by vm_compute. Qed.

(** C7, amended.  [parseFee] keeps the digits and decimal points of the
    fee text and reads the leading digit run of what remains: the result
    is the double nearest to the integer the run writes, which is that
    integer whenever the run has at most fifteen digits, and it is the
    infinite sentinel when the run is empty (the remainder does not
    parse), in particular for the empty input and for every input without
    a digit.  A non-empty string of at most fifteen digits maps to the
    integer it writes; "₹ 500" maps to 500, "1,200" to 1200 and "" to the
    sentinel. *)
Theorem parseFee_spec (feeString : jsstring) :
  let remainder := [seq c <- feeString | is_digit c || (c == dot)] in
  let run := digit_prefix remainder in
  [/\ parseFee feeString =
        (if run is [::] then PInf else round_double (dec_value run))
      /\ (0 < size run <= 15 -> parseFee feeString = Fin (dec_value run)),
      (feeString = [::] -> parseFee feeString = PInf),
      (~~ has is_digit feeString -> parseFee feeString = PInf),
      (all is_digit feeString -> feeString <> [::] ->
         parseFee feeString = round_double (dec_value feeString)
         /\ (size feeString <= 15 ->
               parseFee feeString = Fin (dec_value feeString)))
    & [/\ parseFee (rupee :: js " 500") = Fin 500,
          parseFee (js "1,200") = Fin 1200
        & parseFee [::] = PInf]].
Proof.
move=> remainder run; split=> //.
- split; first exact: parseFee_remainder.
  rewrite parseFee_remainder -/remainder -/run => /andP [ne le].
  rewrite (round_double_digits (all_digit_prefix remainder) le).
  by rewrite -/run; case: run ne {le}.
- by move=> ->.
- move=> nd; rewrite parseFee_remainder -/remainder.
  have: no_leading_digit remainder.
    have: ~~ has is_digit remainder.
      apply: contra nd => /hasP [c cin dc]; apply/hasP; exists c => //.
      by move: cin; rewrite mem_filter => /andP [].
    by rewrite /remainder; case: [seq _ <- _ | _] => [|c r] //= /norP [].
  by rewrite -digit_prefix_nil => /eqP ->.
- move=> ds /eqP ne; rewrite parseFee_remainder.
  have -> : [seq c <- feeString | is_digit c || (c == dot)] = feeString.
    by apply/all_filterP; apply: sub_all ds => c ->.
  rewrite digit_prefix_all //.
  have -> : (if feeString is [::] then PInf
             else round_double (dec_value feeString))
            = round_double (dec_value feeString).
    by case: feeString ne {ds remainder run}.
  by split=> // le; rewrite round_double_digits.
Qed.

Lemma parseExperience_run (pre run post : jsstring) :
  ~~ has is_digit pre -> all is_digit run -> run != [::] ->
  no_leading_digit post ->
  parseExperience (pre ++ run ++ post) = round_double (dec_value run).
Proof.
move=> npre drun ne npost; rewrite /parseExperience.
rewrite match_digits_run // parseInt10_digits // isNaN_round_double.
by case: pre {npre} => [|c pre] //; case: run ne {drun}.
Qed.

Lemma parseExperience_none (expString : jsstring) :
  ~~ has is_digit expString -> parseExperience expString = Fin 0.
Proof.
move=> nd; rewrite /parseExperience match_digits_none //.
by case: expString {nd}.
Qed.

Lemma parseExperience_cases (expString : jsstring) :
  parseExperience expString = PInf \/
  exists2 n, (0 <= n)%Z & parseExperience expString = Fin n.
Proof.
case hd: (has is_digit expString); last first.
  by right; exists 0%Z => //; apply: parseExperience_none; rewrite hd.
have [pre [run [post [-> npre drun ne npost]]]] := first_digit_run hd.
rewrite parseExperience_run //.
exact/round_double_nonneg/dec_value_ge0.
Qed.

(** C8, the claim as stated, at two texts.  A run of four hundred nines
    is read as Infinity, which is no integer; and the sixteen digits
    9007199254740993 are read as 9007199254740992, not as the integer
    they write. *)
Lemma parseExperience_overflow :
  [/\ parseExperience (nseq 400 57%num ++ js " Years of experience") = PInf,
      parseExperience (js "9007199254740993 years")
        = Fin 9007199254740992
    & (parseExperience (js "9007199254740993 years")
         == Fin (dec_value (js "9007199254740993"))) = false].
Proof. by vm_compute. Qed.

(** C8, amended.  [parseExperience] returns the double nearest to the
    integer written by the first maximal run of decimal digits of the text
    (every text with a digit has such a run): that integer whenever the
    run has at most fifteen digits, a rounded one or Infinity for longer
    runs.  It returns 0 when the text has no digit, the empty text
    included; the result is never negative and never NaN.  "13 Years of
    experience" maps to 13, "experience unknown" and "" map to 0. *)
Theorem parseExperience_spec (expString : jsstring) :
  [/\ (forall pre run post,
         expString = pre ++ run ++ post ->
         ~~ has is_digit pre -> all is_digit run -> run <> [::] ->
         no_leading_digit post ->
         parseExperience expString = round_double (dec_value run)
         /\ (size run <= 15 ->
               parseExperience expString = Fin (dec_value run))),
      (has is_digit expString ->
         exists pre run post,
           [/\ expString = pre ++ run ++ post, ~~ has is_digit pre,
               all is_digit run, run != [::] & no_leading_digit post]),
      (~~ has is_digit expString -> parseExperience expString = Fin 0),
      (parseExperience expString = PInf \/
       exists2 n, (0 <= n)%Z & parseExperience expString = Fin n)
    & [/\ parseExperience (js "13 Years of experience") = Fin 13,
          parseExperience (js "experience unknown") = Fin 0
        & parseExperience [::] = Fin 0]].
Proof.
split=> //.
- move=> pre run post -> npre drun /eqP ne npost.
  rewrite parseExperience_run //; split=> // le.
  exact: round_double_digits.
- exact: first_digit_run.
- exact: parseExperience_none.
- exact: parseExperience_cases.
Qed.



(** ** Toggling a sort criterion *)

Lemma indexOf_found (x : jsstring) (s : seq jsstring) :
  (-1 <? indexOf x s)%Z = (x \in s).
Proof.
rewrite /indexOf; case: (x \in s) => //.
by apply/Z.ltb_lt; have := Zle_0_nat (index x s); lia.
Qed.

Lemma toggleSortOptionE (option : jsstring) (prev : seq jsstring) :
  toggleSortOption option prev =
  if option \in prev then [seq item <- prev | item != option]
  else rcons prev option.
Proof. by rewrite /toggleSortOption indexOf_found. Qed.

Lemma filter_neq_notin (x : jsstring) (s : seq jsstring) :
  x \notin s -> [seq y <- s | y != x] = s.
Proof.
move=> nx; apply/all_filterP/allP => y ys.
by apply: contraNneq nx => <-.
Qed.

Lemma toggleSortOption_twiceE (option : jsstring) (prev : seq jsstring) :
  toggleSortOption option (toggleSortOption option prev) =
  if option \in prev then rcons [seq item <- prev | item != option] option
  else prev.
Proof.
rewrite (toggleSortOptionE option prev).
case: ifPn => [_|nin]; rewrite toggleSortOptionE.
- by rewrite mem_filter eqxx.
- by rewrite mem_rcons mem_head filter_rcons eqxx /= filter_neq_notin.
Qed.

(** C2, the claim as stated, at [fees; experience]: toggling [fees] twice
    moves it behind [experience]. *)
Lemma toggle_twice_moves_criterion :
  toggleSortOption (sortCriterion_str Fees)
    (toggleSortOption (sortCriterion_str Fees) [:: s_fees; s_experience])
  = [:: s_experience; s_fees]
  /\ ([:: s_experience; s_fees] == [:: s_fees; s_experience]) = false.
Proof. by []. Qed.

(** C2, amended.  Toggling a criterion twice gives back the sequence
    unchanged when the criterion was not active; when it was active, the
    result is the sequence without the criterion, followed by the
    criterion.  So the original sequence is restored exactly when the
    criterion was inactive or was the last active criterion (and occurred
    nowhere else); the other criteria keep their relative order in every
    case. *)
Theorem toggleSortOption_twice (criterion : SortCriterion)
    (prev : seq jsstring) :
  let option := sortCriterion_str criterion in
  let twice := toggleSortOption option (toggleSortOption option prev) in
  [/\ twice = (if option \in prev
               then rcons [seq item <- prev | item != option] option
               else prev),
      [seq item <- twice | item != option]
        = [seq item <- prev | item != option]
    & twice = prev <->
      (option \notin prev \/
       exists2 s, option \notin s & prev = rcons s option)].
Proof.
move=> option twice; rewrite /twice toggleSortOption_twiceE; split=> //.
- case: ifP => // _; rewrite filter_rcons eqxx /=.
  by rewrite -filter_predI; apply: eq_filter => x /=; rewrite andbb.
- case: ifPn => [oin|nin]; last by split=> // _; left.
  split=> [e|[|[s ns e]]].
  + right; exists [seq item <- prev | item != option] => //.
    by rewrite mem_filter eqxx.
  + by [].
  + by rewrite e filter_rcons eqxx /= filter_neq_notin.
Qed.

(** ** The state read from the URL and kept by the handlers *)

Lemma sortCriterion_str_ok (c : SortCriterion) :
  is_criterion (sortCriterion_str c).
Proof. by case: c. Qed.

Lemma toggleSortOption_all (p : pred jsstring) (option : jsstring)
    (prev : seq jsstring) :
  p option -> all p prev -> all p (toggleSortOption option prev).
Proof.
move=> po pp; rewrite toggleSortOptionE; case: ifP => _.
- by rewrite all_filter; apply: sub_all pp => x px /=; rewrite px implybT.
- by rewrite all_rcons po.
Qed.

Lemma toggleSortOption_uniq (option : jsstring) (prev : seq jsstring) :
  uniq prev -> uniq (toggleSortOption option prev).
Proof.
move=> up; rewrite toggleSortOptionE; case: ifPn => nin.
- exact: filter_uniq.
- by rewrite rcons_uniq nin.
Qed.

(** What a handler can do to the sort options: nothing, empty them, or
    toggle one of the two criteria. *)
Lemma sortOptions_dispatch (st : FilterState) (a : Action) :
  [\/ sortOptions (dispatch st a) = sortOptions st,
      sortOptions (dispatch st a) = [::]
    | exists c, sortOptions (dispatch st a)
                = toggleSortOption (sortCriterion_str c) (sortOptions st)].
Proof.
case: a => [t|t|s|c||t] /=; try by constructor 1.
- by constructor 3; exists c.
- by constructor 2.
Qed.

Lemma sortOptions_foldl (P : seq jsstring -> Prop) :
  P [::] ->
  (forall c s, P s -> P (toggleSortOption (sortCriterion_str c) s)) ->
  forall actions st,
    P (sortOptions st) -> P (sortOptions (foldl dispatch st actions)).
Proof.
move=> P0 Pt; elim=> [|a actions IH] st Pst //=; apply: IH.
by case: (sortOptions_dispatch st a) => [->|->|[c ->]] //; apply: Pt.
Qed.

(** C4, the claim as stated, at two URLs: a repeated [sort] parameter is
    kept twice, and a [sort] value outside the domain is kept as it is. *)
Lemma sortOptions_from_url_unchecked :
  [/\ sortOptions (stateAfter [:: (k_sort, s_fees); (k_sort, s_fees)] [::])
        = [:: s_fees; s_fees],
      uniq (sortOptions
              (stateAfter [:: (k_sort, s_fees); (k_sort, s_fees)] [::]))
        = false,
      sortOptions (stateAfter [:: (k_sort, js "rating")] [::])
        = [:: js "rating"]
    & all is_criterion
          (sortOptions (stateAfter [:: (k_sort, js "rating")] [::]))
        = false].
Proof. by []. Qed.

(** C4, amended.  Initialization copies the URL's [sort] values into the
    sort sequence as they are and in their order.  The handlers never add
    a value outside {fees, experience} and never add a criterion that is
    already present: in every reachable state, the sort sequence is drawn
    from the domain if the URL's [sort] values were, and is free of
    repetitions if the URL's [sort] values were. *)
Theorem sortOptions_invariant (searchParams : URLSearchParams)
    (actions : seq Action) :
  let fromURL := usp_getAll k_sort searchParams in
  let st := stateAfter searchParams actions in
  [/\ sortOptions (initialState searchParams) = fromURL,
      (all is_criterion fromURL -> all is_criterion (sortOptions st))
    & (uniq fromURL -> uniq (sortOptions st))].
Proof.
move=> fromURL st; split=> // H; rewrite /st /stateAfter.
- apply: (@sortOptions_foldl (fun s => all is_criterion s)) => // c s.
  by apply: toggleSortOption_all; apply: sortCriterion_str_ok.
- apply: (@sortOptions_foldl (fun s => uniq s)) => // c s.
  exact: toggleSortOption_uniq.
Qed.

(** The value [usp_get] returns is that of the first pair with the key. *)
Lemma usp_get_first (key value : jsstring) (before after : URLSearchParams) :
  ~~ has (fun kv => kv.1 == key) before ->
  usp_get key (before ++ (key, value) :: after) = Some value.
Proof.
rewrite /usp_get filter_cat /= eqxx has_filter negbK => /eqP -> /=.
by [].
Qed.

Lemma usp_get_absent (key : jsstring) (params : URLSearchParams) :
  ~~ has (fun kv => kv.1 == key) params -> usp_get key params = None.
Proof. by rewrite /usp_get has_filter negbK => /eqP ->. Qed.

(** C5, the claim as stated, at [?consultation=Online]: the value is
    outside the two-value domain and still becomes the filter. *)
Lemma consultation_from_url_unchecked :
  consultationType (initialState [:: (k_consultation, js "Online")])
  = Some (js "Online")
  /\ (js "Online" \in [:: VideoConsult; InClinic]) = false.
Proof. by []. Qed.

(** C5, amended.  On initialization the consultation filter takes the
    value of the first [consultation] parameter of the URL whenever that
    value is not empty, whether it is "Video Consult", "In Clinic" or any
    other string; it is none when the parameter is absent or empty. *)
Theorem initial_consultationType (searchParams : URLSearchParams) :
  let ct := consultationType (initialState searchParams) in
  [/\ (forall before value after,
         searchParams = before ++ (k_consultation, value) :: after ->
         ~~ has (fun kv => kv.1 == k_consultation) before ->
         ct = if value is [::] then None else Some value),
      (forall mode,
         usp_get k_consultation searchParams
           = Some (consultationMode_str mode) ->
         ct = Some (consultationMode_str mode))
    & (~~ has (fun kv => kv.1 == k_consultation) searchParams -> ct = None)].
Proof.
move=> ct; rewrite /ct /=; split.
- move=> before value after -> nb; rewrite usp_get_first //=.
  by case: value.
- by move=> mode ->; case: mode.
- by move/usp_get_absent ->.
Qed.

(** ** URL round trip *)

Lemma set_add_uniq (s : seq jsstring) (x : jsstring) :
  uniq s -> uniq (set_add s x).
Proof.
by rewrite /set_add; case: ifPn => // nin us; rewrite rcons_uniq nin.
Qed.

Lemma new_Set_foldl_uniq (items acc : seq jsstring) :
  uniq acc -> uniq (foldl set_add acc items).
Proof.
by elim: items acc => [|x items IH] acc ua //=; apply/IH/set_add_uniq.
Qed.

Lemma new_Set_uniq (items : seq jsstring) : uniq (new_Set items).
Proof. exact: new_Set_foldl_uniq. Qed.

Lemma new_Set_foldl_id (items acc : seq jsstring) :
  uniq (acc ++ items) -> foldl set_add acc items = acc ++ items.
Proof.
elim: items acc => [|x items IH] acc /=; first by rewrite cats0.
rewrite -cat_rcons => u.
have nx : x \notin acc.
  by move: u; rewrite cat_uniq rcons_uniq => /andP [/andP []].
by rewrite /set_add (negbTE nx) IH.
Qed.

Lemma new_Set_id (items : seq jsstring) : uniq items -> new_Set items = items.
Proof. by move=> u; rewrite /new_Set new_Set_foldl_id. Qed.

Lemma mem_set_add (s : seq jsstring) (x : jsstring) :
  set_add s x =i rcons s x.
Proof.
move=> y; rewrite /set_add; case: ifP => // xin.
by rewrite mem_rcons in_cons; case: eqP => // ->; rewrite xin.
Qed.

Lemma mem_new_Set_foldl (items acc : seq jsstring) :
  foldl set_add acc items =i acc ++ items.
Proof.
elim: items acc => [|x items IH] acc y /=; first by rewrite cats0.
by rewrite IH !mem_cat mem_set_add mem_rcons !in_cons orbA [(y == x) || _]orbC.
Qed.

Lemma mem_new_Set (items : seq jsstring) : new_Set items =i items.
Proof. by move=> y; rewrite /new_Set mem_new_Set_foldl. Qed.

Lemma state_ok_initial (searchParams : URLSearchParams) :
  state_ok (initialState searchParams).
Proof.
rewrite /state_ok /= new_Set_uniq andbT.
by case: (usp_get k_consultation searchParams) => [[|c v]|].
Qed.

Lemma state_ok_dispatch (st : FilterState) (a : Action) :
  state_ok st -> state_ok (dispatch st a).
Proof.
rewrite /state_ok; case/andP=> nc us.
case: a => [t|[[|]|]|s|c||t] //=; rewrite ?nc ?us //.
rewrite /toggleSpecialty /set_has /set_delete; case: ifP => _.
- exact: filter_uniq.
- exact: set_add_uniq.
Qed.

Lemma state_ok_stateAfter (searchParams : URLSearchParams)
    (actions : seq Action) :
  state_ok (stateAfter searchParams actions).
Proof.
rewrite /stateAfter; move: (state_ok_initial searchParams).
elim: actions (initialState _) => [|a actions IH] st ok //=.
exact/IH/state_ok_dispatch.
Qed.

(** *** Scalar value strings *)

Lemma toUSVString_cons (c : codeunit) (s : jsstring) :
  ~~ is_high_surrogate c -> ~~ is_low_surrogate c ->
  toUSVString (c :: s) = c :: toUSVString s.
Proof. by move=> /= /negbTE -> /negbTE ->. Qed.

Lemma high_not_low (c : codeunit) :
  is_high_surrogate c -> is_low_surrogate c = false.
Proof.
rewrite /is_high_surrogate /is_low_surrogate.
by move=> /andP [_ /N.leb_le hi]; apply/negbTE/negP => /andP [/N.leb_le lo _];
  lia.
Qed.

Lemma toUSVString_pair (c d : codeunit) (s : jsstring) :
  is_high_surrogate c -> is_low_surrogate d ->
  toUSVString [:: c, d & s] = [:: c, d & toUSVString s].
Proof. by move=> /= -> ->. Qed.

Lemma toUSVString_lone (c : codeunit) (s : jsstring) :
  is_high_surrogate c || is_low_surrogate c ->
  (if s is d :: _ then is_high_surrogate c ==> ~~ is_low_surrogate d
   else true) ->
  toUSVString (c :: s) = replacement_character :: toUSVString s.
Proof.
case: s => [|d s] /=.
  by case: (is_high_surrogate c); case: (is_low_surrogate c).
by case: (is_high_surrogate c); case: (is_low_surrogate c) => //=;
  case: (is_low_surrogate d).
Qed.

Lemma toUSVString_idem (s : jsstring) :
  toUSVString (toUSVString s) = toUSVString s.
Proof.
have [n] := ubnP (size s); elim: n s => // n IH [|c r] //.
rewrite ltnS => lt.
have IHr : toUSVString (toUSVString r) = toUSVString r by apply: IH.
have rep x : toUSVString (replacement_character :: x)
             = replacement_character :: toUSVString x by [].
case hc: (is_high_surrogate c).
  case: r lt IHr => [|d r'] lt IHr; first by rewrite /= hc.
  case ld: (is_low_surrogate d); last first.
    by rewrite toUSVString_lone ?hc ?ld // rep IHr.
  rewrite !toUSVString_pair //.
  by congr [:: _, _ & _]; apply: IH; apply: ltnW.
case lc: (is_low_surrogate c).
  by rewrite toUSVString_lone ?hc ?lc // ?rep ?IHr //; case: r {lt IHr}.
by rewrite !toUSVString_cons ?hc ?lc // IHr.
Qed.

Lemma isWellFormed_toUSVString (s : jsstring) : isWellFormed (toUSVString s).
Proof. by rewrite /isWellFormed toUSVString_idem. Qed.

Lemma toUSVString_nil (s : jsstring) : (toUSVString s == [::]) = (s == [::]).
Proof.
case: s => [|c [|d r]] //=.
  by case: (is_high_surrogate c); case: (is_low_surrogate c).
by case: (is_high_surrogate c); case: (is_low_surrogate c);
  case: (is_low_surrogate d).
Qed.

Lemma map_toUSVString (xs : seq jsstring) :
  all isWellFormed xs -> [seq toUSVString x | x <- xs] = xs.
Proof.
move=> /allP wf; rewrite -[RHS]map_id; apply/eq_in_map => x /wf.
by move/eqP.
Qed.

(** *** The parameters written and read back *)

Lemma foldl_usp_append (key : jsstring) (xs : seq jsstring)
    (params : URLSearchParams) :
  foldl (fun p x => usp_append key x p) params xs
  = params ++ [seq (toUSVString key, toUSVString x) | x <- xs].
Proof.
elim: xs params => [|x xs IH] params /=; first by rewrite cats0.
by rewrite IH /usp_append cat_rcons.
Qed.

(** The parameter list the effect builds, written out. *)
Lemma urlOfStateE (st : FilterState) :
  urlOfState st =
  (if str_truthy (searchTerm st)
   then [:: (k_search, toUSVString (searchTerm st))] else [::])
  ++ (if truthy (consultationType st)
      then [:: (k_consultation,
                toUSVString (odflt [::] (consultationType st)))]
      else [::])
  ++ [seq (k_specialty, toUSVString x) | x <- selectedSpecialties st]
  ++ [seq (k_sort, toUSVString x) | x <- sortOptions st].
Proof.
rewrite /urlOfState !foldl_usp_append /usp_set.
by case: (str_truthy _); case: (truthy _); rewrite /= ?catA.
Qed.

Lemma filter_key_map (key k : jsstring) (xs : seq jsstring) :
  [seq kv <- [seq (k, x) | x <- xs] | kv.1 == key]
  = if k == key then [seq (k, x) | x <- xs] else [::].
Proof.
rewrite filter_map /preim /=; case: ifP => _.
- by rewrite filter_predT.
- by rewrite filter_pred0.
Qed.

Lemma filter_key_mapf (key k : jsstring) (f : jsstring -> jsstring)
    (xs : seq jsstring) :
  [seq kv <- [seq (k, f x) | x <- xs] | kv.1 == key]
  = if k == key then [seq (k, f x) | x <- xs] else [::].
Proof.
rewrite filter_map /preim /=; case: ifP => _.
- by rewrite filter_predT.
- by rewrite filter_pred0.
Qed.

Lemma usp_getAll_urlOfState (st : FilterState) :
  usp_getAll k_specialty (urlOfState st)
    = [seq toUSVString x | x <- selectedSpecialties st]
  /\ usp_getAll k_sort (urlOfState st)
    = [seq toUSVString x | x <- sortOptions st].
Proof.
rewrite /usp_getAll urlOfStateE !filter_cat !filter_key_mapf /=.
have id_map (k : jsstring) (xs : seq jsstring) :
    [seq kv.2 | kv <- [seq (k, toUSVString x) | x <- xs]]
    = [seq toUSVString x | x <- xs].
  by rewrite -map_comp.
by case: (str_truthy _); case: (truthy _); rewrite /= ?cats0 id_map.
Qed.

Lemma usp_get_urlOfState (st : FilterState) :
  usp_get k_search (urlOfState st)
    = (if str_truthy (searchTerm st)
       then Some (toUSVString (searchTerm st)) else None)
  /\ usp_get k_consultation (urlOfState st)
    = (if truthy (consultationType st)
       then Some (toUSVString (odflt [::] (consultationType st)))
       else None).
Proof.
rewrite /usp_get urlOfStateE !filter_cat !filter_key_mapf /=.
by case: (str_truthy _); case: (truthy _).
Qed.

(** Reading back what was written gives the state as the URL can hold
    it. *)
Lemma round_trip_written (st : FilterState) :
  state_ok st -> initialState (urlOfState st) = asWritten st.
Proof.
case: st => s c sp so /andP [/= nc us]; rewrite /initialState /asWritten.
have [-> ->] := usp_getAll_urlOfState (mkFilterState s c sp so).
have [-> ->] := usp_get_urlOfState (mkFilterState s c sp so).
rewrite /=; congr mkFilterState.
- rewrite /str_truthy; case: eqP => [->|/eqP ne] //=.
  by rewrite /str_truthy toUSVString_nil ne.
- case: c nc => [c|] //= nc.
  rewrite /str_truthy; case: eqP => [e|/eqP ne] /=; first by rewrite e in nc.
  by rewrite /str_truthy toUSVString_nil ne.
Qed.

Lemma asWritten_well_formed (st : FilterState) :
  uniq (selectedSpecialties st) -> well_formed_state st -> asWritten st = st.
Proof.
case: st => s c sp so /= us /and4P [/= /eqP ws wc wsp wso].
rewrite /asWritten /= ws !map_toUSVString // new_Set_id //.
by congr mkFilterState; case: c wc => [c|] //= /eqP ->.
Qed.

Lemma round_trip_ok (st : FilterState) :
  state_ok st -> well_formed_state st -> initialState (urlOfState st) = st.
Proof.
move=> ok wf; rewrite round_trip_written //.
by apply: asWritten_well_formed => //; case/andP: ok.
Qed.

Lemma well_formed_asWritten (st : FilterState) :
  well_formed_state (asWritten st).
Proof.
rewrite /well_formed_state /= isWellFormed_toUSVString /=.
apply/and3P; split.
- by case: (consultationType st) => [c|] //=; apply: isWellFormed_toUSVString.
- apply/allP => x; rewrite mem_new_Set => /mapP [y _ ->].
  exact: isWellFormed_toUSVString.
- by rewrite all_map; apply/allP => x _ /=; apply: isWellFormed_toUSVString.
Qed.

Lemma state_ok_asWritten (st : FilterState) :
  state_ok st -> state_ok (asWritten st).
Proof.
rewrite /state_ok /= new_Set_uniq andbT => /andP [nc _].
case: (consultationType st) nc => [c|] //= nc.
by rewrite -[_ == _]/(toUSVString c == [::]) toUSVString_nil.
Qed.

(** The state as the URL holds it is written and read back unchanged. *)
Lemma asWritten_stable (st : FilterState) :
  state_ok st ->
  initialState (urlOfState (asWritten st)) = asWritten st.
Proof.
move=> ok; apply: round_trip_ok; last exact: well_formed_asWritten.
exact: state_ok_asWritten.
Qed.

(** *** Well-formed strings in, well-formed state *)

Lemma isWellFormed_criterion (c : SortCriterion) :
  isWellFormed (sortCriterion_str c).
Proof. by case: c. Qed.

Lemma well_formed_initial (searchParams : URLSearchParams) :
  all (fun kv => isWellFormed kv.2) searchParams ->
  well_formed_state (initialState searchParams).
Proof.
move=> /allP wf.
have wget key : if usp_get key searchParams is Some v then isWellFormed v
                else true.
  rewrite /usp_get.
  have := @mem_filter _ (fun kv => kv.1 == key) _ searchParams.
  case: [seq _ <- _ | _] => [|kv r] // /(_ kv).
  by rewrite mem_head => /esym /andP [_ /wf].
have wall key : all isWellFormed (usp_getAll key searchParams).
  rewrite /usp_getAll all_map; apply/allP => kv.
  by rewrite mem_filter => /andP [_ /wf].
rewrite /well_formed_state /=; apply/and4P; split.
- by move: (wget k_search); case: (usp_get _ _) => [[|c v]|].
- by move: (wget k_consultation); case: (usp_get _ _) => [[|c v]|].
- by apply/allP => x; rewrite mem_new_Set => /(allP (wall k_specialty)).
- exact: wall.
Qed.

Lemma well_formed_dispatch (st : FilterState) (a : Action) :
  well_formed_action a -> well_formed_state st ->
  well_formed_state (dispatch st a).
Proof.
case: a => [t|[m|]|sp|c||t] /= wa /and4P [ws wc wsp wso];
  apply/and4P; split=> //.
- by case: m.
- rewrite /= /toggleSpecialty /set_has /set_delete; case: ifP => _.
    by rewrite all_filter; apply: sub_all wsp => x px /=; rewrite px implybT.
  by rewrite /set_add; case: ifP => // _; rewrite all_rcons wa.
- by apply: toggleSortOption_all => //; apply: isWellFormed_criterion.
Qed.

Lemma well_formed_stateAfter (searchParams : URLSearchParams)
    (actions : seq Action) :
  all (fun kv => isWellFormed kv.2) searchParams ->
  all well_formed_action actions ->
  well_formed_state (stateAfter searchParams actions).
Proof.
move=> /well_formed_initial; rewrite /stateAfter.
elim: actions (initialState _) => [|a actions IH] st wf //= /andP [wa was].
by apply: IH was; apply: well_formed_dispatch.
Qed.

(** C3, the claim as stated, at two reachable states.  A search term
    with a lone surrogate is written with U+FFFD in its place, and read
    back as such; two selected specialties that are different lone
    surrogates are written as the same value, and read back as one. *)
Lemma url_round_trip_lone_surrogate :
  [/\ searchTerm
        (initialState
           (urlOfState
              (stateAfter [::] [:: SetSearchTerm [:: 55296; 120]%num])))
        = [:: 65533; 120]%num,
      (initialState
         (urlOfState
            (stateAfter [::] [:: SetSearchTerm [:: 55296; 120]%num]))
       == stateAfter [::] [:: SetSearchTerm [:: 55296; 120]%num]) = false,
      selectedSpecialties
        (stateAfter [::] [:: ToggleSpecialty [:: 55296%num];
                             ToggleSpecialty [:: 56320%num]])
        = [:: [:: 55296%num]; [:: 56320%num]]
    & selectedSpecialties
        (initialState
           (urlOfState
              (stateAfter [::] [:: ToggleSpecialty [:: 55296%num];
                                   ToggleSpecialty [:: 56320%num]])))
      = [:: [:: 65533%num]]].
Proof. by vm_compute. Qed.

(** C3, amended.  For every reachable state (the state read from any
    URL, after any sequence of handler calls) whose strings are well
    formed, reading back the query parameters written for that state
    gives the same search term, the same consultation filter, the same
    set of selected specialties and the same sequence of sort criteria;
    the whole state is in fact reproduced.  The strings are well formed
    whenever those of the URL and those given to the handlers are.  In
    general the state read back is the original with every lone surrogate
    replaced by U+FFFD and the specialties that coincide after that kept
    once; writing and reading that state again reproduces it. *)
Theorem url_round_trip (searchParams : URLSearchParams)
    (actions : seq Action) :
  let st := stateAfter searchParams actions in
  let st' := initialState (urlOfState st) in
  [/\ well_formed_state st ->
        [/\ searchTerm st' = searchTerm st,
            consultationType st' = consultationType st,
            selectedSpecialties st' =i selectedSpecialties st,
            sortOptions st' = sortOptions st
          & st' = st],
      all (fun kv => isWellFormed kv.2) searchParams ->
        all well_formed_action actions -> well_formed_state st,
      st' = asWritten st
    & initialState (urlOfState st') = st'].
Proof.
move=> st st'.
have ok : state_ok st by apply: state_ok_stateAfter.
have wE : st' = asWritten st by apply: round_trip_written.
split=> //.
- move=> wf; have -> : st' = st by apply: round_trip_ok.
  by split.
- exact: well_formed_stateAfter.
- by rewrite wE; apply: asWritten_stable.
Qed.

(** ** Trimming *)





(** ** Suggestions *)

Section Suggestions.

Variable toLowerCase : jsstring -> jsstring.



End Suggestions.

(** ** The filtered list *)

Lemma filter3 (T : Type) (a b c : pred T) (s : seq T) :
  [seq x <- [seq x <- [seq x <- s | a x] | b x] | c x]
  = [seq x <- s | [&& a x, b x & c x]].
Proof.
rewrite -!filter_predI; apply: eq_filter => x /=.
by case: (a x); case: (b x); case: (c x).
Qed.

Section Filtering.

Variable toLowerCase : jsstring -> jsstring.

(** The three filters in a row keep the records that pass all three. *)
Lemma filteredDoctors_stages (allDoctors : seq Doctor) (st : FilterState) :
  consultationType st != Some [::] ->
  filteredDoctors toLowerCase allDoctors st
  = let doctors := [seq doc <- allDoctors | passesFilters toLowerCase st doc] in
    if 0 < size (sortOptions st)
    then array_sort (compareDoctors (sortOptions st)) doctors
    else doctors.
Proof.
move=> nc /=; rewrite -filter3.
rewrite /filteredDoctors /str_truthy /set_has /nameIncludes.
set stage1 := (if searchTerm st != [::] then _ else _).
have -> : stage1 = [seq doc <- allDoctors |
    (searchTerm st == [::]) || nameMatches toLowerCase (searchTerm st) doc].
  rewrite /stage1; case: eqP => _ /=; last by [].
  by rewrite filter_predT.
set stage2 := (if truthy _ then _ else _).
have -> : stage2 = [seq doc <- [seq doc <- allDoctors |
    (searchTerm st == [::]) || nameMatches toLowerCase (searchTerm st) doc] |
    if consultationType st is Some mode
    then mode \in consultationModes doc else true].
  rewrite /stage2; case: (consultationType st) nc => [[|c m]|] //= _.
  by rewrite filter_predT.
set stage3 := (if 0 < size (selectedSpecialties st) then _ else _).
suff -> : stage3 = [seq doc <- [seq doc <- [seq doc <- allDoctors |
    (searchTerm st == [::]) || nameMatches toLowerCase (searchTerm st) doc] |
    if consultationType st is Some mode
    then mode \in consultationModes doc else true] |
    (selectedSpecialties st == [::])
    || has (fun spec => spec \in selectedSpecialties st)
           (specialityNames doc)] by [].
rewrite /stage3; case: (selectedSpecialties st) => [|x sp] //=.
by rewrite filter_predT.
Qed.



End Filtering.

(** ** Sorting *)

(** C1, at two records whose fee does not parse, sorted by fees and then
    experience.  Both parsed fees are the infinite sentinel, their
    difference is NaN, and the comparator returns it at once: experience
    is never compared, the sort takes the two records as equal and leaves
    the one with 2 years before the one with 8 years.  In the order of
    the specification the second record comes first. *)
Theorem sort_two_unparsed_fees :
  let A := processDoctor rawA in
  let B := processDoctor rawB in
  let st :=
    stateAfter [::] [:: ToggleSortOption Fees; ToggleSortOption Experience] in
  [/\ (parsedFees A = PInf /\ parsedExperience A = Fin 2)
      /\ (parsedFees B = PInf /\ parsedExperience B = Fin 8),
      sortOptions st = [:: s_fees; s_experience],
      compareDoctors (sortOptions st) A B = NaN,
      filteredDoctors ascii_toLowerCase [:: A; B] st = [:: A; B]
    & spec_chain [:: Fees; Experience] A B = Gt
      /\ sorted (spec_le [:: Fees; Experience])
                (filteredDoctors ascii_toLowerCase [:: A; B] st) = false].
Proof. by vm_compute. Qed.

(** *** The comparator on canonical records *)

Lemma processDoctor_canonical (rawDoc : RawDoctorData) :
  canonical (processDoctor rawDoc).
Proof.
rewrite /canonical /=.
case: (parseFee_cases (raw_fees rawDoc)) => [->|[n /Z.leb_le n0 ->]] /=;
  case: (parseExperience_cases (raw_experience rawDoc))
    => [->|[m /Z.leb_le m0 ->]] //=;
  by rewrite ?n0 ?m0.
Qed.

Ltac z_cases :=
  repeat (case: eqP => ? //=); repeat (case: Z.ltb_spec => ? //=);
  try (exfalso; lia).

(** One step of the comparator on two finite numbers: the sign of the
    rounded difference is that of the exact one. *)
Lemma num_pos_step (d : Z) (rest : number) :
  num_pos (if num_nonzero (round_double d) then round_double d else rest)
  = if d == 0%Z then num_pos rest else (0 <? d)%Z.
Proof.
rewrite num_nonzero_round_double; case: eqP => //= _.
exact: num_pos_round_double.
Qed.

Ltac sub_cases := rewrite ?num_pos_step; z_cases.

Lemma comesFirst_total (sortOptions : seq jsstring) :
  {in canonical &, total (comesFirst sortOptions)}.
Proof.
elim: sortOptions => [|o rest IH] a b ca cb //.
have := IH a b ca cb; move: ca cb.
rewrite /comesFirst !unfold_in /canonical /=.
case: (o == s_fees); last case: (o == s_experience); last by [].
- case: (parsedFees a) => [x|||] //; case: (parsedFees b) => [y|||] //= _ _;
    by sub_cases.
- case: (parsedExperience a) => [x|||]; rewrite ?andbF //;
    case: (parsedExperience b) => [y|||]; rewrite ?andbF //= => _ _;
    by sub_cases.
Qed.

Lemma comesFirst_trans (sortOptions : seq jsstring) :
  {in canonical & &, transitive (comesFirst sortOptions)}.
Proof.
elim: sortOptions => [|o rest IH] b a c cb ca cc //.
have := IH b a c cb ca cc; move: ca cb cc.
rewrite /comesFirst !unfold_in /canonical /=.
case: (o == s_fees); last case: (o == s_experience); last by [].
- case: (parsedFees a) => [x|||] //; case: (parsedFees b) => [y|||] //;
    case: (parsedFees c) => [z|||] //= _ _ _; by sub_cases.
- case: (parsedExperience a) => [x|||]; rewrite ?andbF //;
    case: (parsedExperience b) => [y|||]; rewrite ?andbF //;
    case: (parsedExperience c) => [z|||]; rewrite ?andbF //= => _ _ _;
    by sub_cases.
Qed.

(** *** The sorted list *)

Lemma pairwise_in (T : eqType) (r : rel T) (s : seq T) :
  {in s &, forall y z, r y z} -> pairwise r s.
Proof.
elim: s => [|x s IH] //= H; apply/andP; split.
- by apply/allP => y ys; apply: H; rewrite inE ?eqxx ?ys ?orbT.
- by apply: IH => y z ys zs; apply: H; rewrite inE ?ys ?zs orbT.
Qed.

Lemma array_sort_nil (s : seq Doctor) : array_sort (compareDoctors [::]) s = s.
Proof. by rewrite /array_sort; apply: pairwise_sort; apply: pairwise_in. Qed.

(** [array_sort] with the program's comparator, on records as the
    normalizer produces them. *)
Lemma array_sort_canonical (sortOptions : seq jsstring) (s : seq Doctor) :
  all canonical s ->
  let out := array_sort (compareDoctors sortOptions) s in
  [/\ perm_eq out s,
      pairwise (comesFirst sortOptions) out
    & forall x, x \in s ->
        [seq y <- out | tied sortOptions x y]
        = [seq y <- s | tied sortOptions x y]].
Proof.
move=> cs out.
have tot := @comesFirst_total sortOptions.
have tr := @comesFirst_trans sortOptions.
rewrite /out /array_sort; split.
- by rewrite perm_sort.
- rewrite -(sorted_pairwise_in tr) ?all_sort //.
  exact: sort_sorted_in tot _ cs.
- move=> x xin; rewrite (filter_sort_in tot tr) //.
  apply: pairwise_sort; apply: pairwise_in => y z.
  rewrite !mem_filter => /andP [/andP [_ yx] yin] /andP [/andP [xz _] zin].
  by apply: (tr x y z) yx xz; apply: (allP cs).
Qed.

Section SortedList.

Variable toLowerCase : jsstring -> jsstring.

Lemma filteredDoctorsE (allDoctors : seq Doctor) (st : FilterState) :
  consultationType st != Some [::] ->
  filteredDoctors toLowerCase allDoctors st
  = array_sort (compareDoctors (sortOptions st))
               [seq doc <- allDoctors | passesFilters toLowerCase st doc].
Proof.
move=> nc; rewrite filteredDoctors_stages //=.
by case: (sortOptions st) => [|o rest] //=; rewrite array_sort_nil.
Qed.

Lemma all_canonical_filter (rawData : seq RawDoctorData) (p : pred Doctor) :
  all canonical [seq doc <- processedDoctors rawData | p doc].
Proof.
have /allP H : all canonical (processedDoctors rawData).
  rewrite /processedDoctors all_map; apply/(@sub_all _ predT); last first.
    exact: all_predT.
  by move=> r _ /=; apply: processDoctor_canonical.
by apply/allP => d; rewrite mem_filter => /andP [_ /H].
Qed.

(** The sort as the program performs it.  On the records the normalizer
    produces the comparator is a consistent one, so in every reachable
    state the output is the filtered list rearranged, no record comes
    after one that the comparator puts behind it, and the records the
    comparator takes as equal to a given record keep the order they have
    in the filtered list (the sort is stable). *)
Theorem sorted_by_comparator (rawData : seq RawDoctorData)
    (searchParams : URLSearchParams) (actions : seq Action) :
  let st := stateAfter searchParams actions in
  let allDoctors := processedDoctors rawData in
  let filtered := [seq doc <- allDoctors | passesFilters toLowerCase st doc] in
  let out := filteredDoctors toLowerCase allDoctors st in
  [/\ perm_eq out filtered,
      pairwise (comesFirst (sortOptions st)) out
    & forall x, x \in filtered ->
        [seq y <- out | tied (sortOptions st) x y]
        = [seq y <- filtered | tied (sortOptions st) x y]].
Proof.
move=> st allDoctors filtered out.
have nc : consultationType st != Some [::].
  by case/andP: (state_ok_stateAfter searchParams actions).
rewrite /out filteredDoctorsE //.
exact/array_sort_canonical/all_canonical_filter.
Qed.

End SortedList.

(** *** The sort is determined by its contract

    ECMAScript asks of [sort], for a consistent comparator, that the
    result be a rearrangement of the array, in the comparator's order,
    with tied elements in their original order.  Two lists that meet this
    for the same input are the same list, so [array_sort] stands for the
    sort of any engine. *)

Lemma stable_sort_unique (T : eqType) (P : {pred T}) (leT : rel T) :
  {in P &, total leT} -> {in P & &, transitive leT} ->
  forall t u : seq T,
    all P t -> perm_eq t u -> sorted leT t -> sorted leT u ->
    (forall x, x \in t ->
       [seq y <- t | leT x y && leT y x] = [seq y <- u | leT x y && leT y x]) ->
    t = u.
Proof.
move=> tot tr; elim=> [|a t IH] u Pt ptu st su stab.
  by move: ptu; rewrite perm_sym => /perm_nilP.
case: u ptu su stab => [|b u] ptu su stab; first by move/perm_nilP: ptu.
have Pu : all P (b :: u) by rewrite -(perm_all _ ptu).
have Pa : a \in P by case/andP: Pt.
have Pb : b \in P by case/andP: Pu.
have aa : leT a a by have := tot a a Pa Pa; rewrite orbb.
have a_min : all (leT a) (a :: t).
  by rewrite /= aa; apply: order_path_min_in tr Pt st.
have b_min : all (leT b) (b :: u).
  have := tot b b Pb Pb; rewrite orbb /= => ->.
  exact: order_path_min_in tr Pu su.
have ab : leT a b.
  by apply: (allP a_min); rewrite (perm_mem ptu) mem_head.
have ba : leT b a.
  by apply: (allP b_min); rewrite -(perm_mem ptu) mem_head.
have e : a = b by have := stab a (mem_head _ _); rewrite /= aa ab ba /=; case.
move: ptu su stab Pu; rewrite -e perm_cons => ptu su stab Pu.
congr (_ :: _); apply: IH => //.
- by case/andP: Pt.
- exact: path_sorted st.
- exact: path_sorted su.
- move=> x xin; have := stab x; rewrite inE xin orbT /= => /(_ isT).
  by case: (leT x a && leT a x) => // [[]].
Qed.

Lemma array_sort_unique (sortOptions : seq jsstring) (s t : seq Doctor) :
  all canonical s -> perm_eq t s -> sorted (comesFirst sortOptions) t ->
  all (fun x => [seq y <- t | tied sortOptions x y]
                == [seq y <- s | tied sortOptions x y]) s ->
  t = array_sort (compareDoctors sortOptions) s.
Proof.
move=> cs pts st /allP stab.
have [pf pw stable] := array_sort_canonical sortOptions cs.
apply: (stable_sort_unique (@comesFirst_total sortOptions)
          (@comesFirst_trans sortOptions)).
- by rewrite (perm_all _ pts).
- by rewrite perm_sym in pf; apply: perm_trans pts pf.
- exact: st.
- exact: pairwise_sorted.
- move=> x; rewrite (perm_mem pts) => xin.
  by rewrite (eqP (stab x xin)) stable.
Qed.

(** In every reachable state the list the program returns is the only
    rearrangement of the filtered list that is in the comparator's order
    and keeps tied records in their order: the result does not depend on
    the algorithm behind [Array.prototype.sort]. *)
Theorem sort_result_determined (toLowerCase : jsstring -> jsstring)
    (rawData : seq RawDoctorData) (searchParams : URLSearchParams)
    (actions : seq Action) (t : seq Doctor) :
  let st := stateAfter searchParams actions in
  let allDoctors := processedDoctors rawData in
  let filtered := [seq doc <- allDoctors | passesFilters toLowerCase st doc] in
  perm_eq t filtered ->
  sorted (comesFirst (sortOptions st)) t ->
  all (fun x => [seq y <- t | tied (sortOptions st) x y]
                == [seq y <- filtered | tied (sortOptions st) x y]) filtered ->
  t = filteredDoctors toLowerCase allDoctors st.
Proof.
move=> st allDoctors filtered pt srt stab.
have nc : consultationType st != Some [::].
  by case/andP: (state_ok_stateAfter searchParams actions).
rewrite filteredDoctorsE //; apply: array_sort_unique => //.
exact: all_canonical_filter.
Qed.

(** The two records without a readable fee, sorted by fees and then
    experience: leaving them as they are is what every stable sort does. *)
Lemma sort_result_determined_unparsed_fees :
  processedDoctors [:: rawA; rawB]
  = filteredDoctors ascii_toLowerCase (processedDoctors [:: rawA; rawB])
      (stateAfter [::]
         [:: ToggleSortOption Fees; ToggleSortOption Experience]).
Proof.
exact: (@sort_result_determined ascii_toLowerCase [:: rawA; rawB] [::]
          [:: ToggleSortOption Fees; ToggleSortOption Experience]
          (processedDoctors [:: rawA; rawB]) (erefl _) (erefl _) (erefl _)).
Defined.

(** *** Agreement with the order of the specification *)

Lemma comesFirst_sign (sortOptions : seq jsstring) (a b : Doctor) :
  comesFirst sortOptions a b
  = (if num_sign (compareDoctors sortOptions a b) is Gt then false else true).
Proof.
rewrite /comesFirst; case: (compareDoctors _ _ _) => [z|||] //=.
by case: Z.compare_spec; case: Z.ltb_spec => //; lia.
Qed.

Lemma num_compare_refl (x : number) : num_compare x x = Eq.
Proof. by case: x => [z|||] //=; rewrite Z.compare_refl. Qed.

Lemma num_compare_opp (x y : number) :
  num_compare y x = CompOpp (num_compare x y).
Proof.
by case: x => [x|||]; case: y => [y|||] //=; rewrite Z.compare_antisym.
Qed.

Lemma spec_chain_refl (criteria : seq SortCriterion) (a : Doctor) :
  spec_chain criteria a a = Eq.
Proof. by elim: criteria => [|[] cs IH] //=; rewrite num_compare_refl. Qed.

Lemma spec_chain_opp (criteria : seq SortCriterion) (a b : Doctor) :
  spec_chain criteria b a = CompOpp (spec_chain criteria a b).
Proof.
elim: criteria => [|c cs IH] //=.
have -> : spec_criterion c b a = CompOpp (spec_criterion c a b).
  by case: c => /=; rewrite num_compare_opp.
by case: (spec_criterion c a b).
Qed.

Lemma num_sign_round_double (z : Z) :
  num_sign (round_double z) = (z ?= 0)%Z.
Proof.
case: (round_doubleP z) => [[v -> [pz nz zz _ _]]|[-> pz]|[-> nz]] /=.
- by case: (Z.compare_spec v 0); case: (Z.compare_spec z 0) => //; lia.
- by case: Z.compare_spec => //; lia.
- by case: Z.compare_spec => //; lia.
Qed.

Lemma num_sign_step (d : Z) (rest : number) :
  num_sign (if num_nonzero (round_double d) then round_double d else rest)
  = if d == 0%Z then num_sign rest else (d ?= 0)%Z.
Proof.
rewrite num_nonzero_round_double; case: eqP => //= _.
exact: num_sign_round_double.
Qed.

Lemma compareDoctors_refl (sortOptions : seq jsstring) (a : Doctor) :
  canonical a -> num_sign (compareDoctors sortOptions a a) = Eq.
Proof.
rewrite /canonical => ca; elim: sortOptions => [|o rest IH] //=.
case: (o == s_fees); last case: (o == s_experience); last by [].
- case: (parsedFees a) ca => [x|||] //= _.
  by rewrite num_sign_step Z.sub_diag eqxx.
- case: (parsedExperience a) ca => [x|||] /=; rewrite ?andbF //= => _.
  by rewrite num_sign_step Z.sub_diag eqxx.
Qed.

(** On two records of which one at least has a parsed fee and one at
    least a finite experience, the comparator decides as the
    lexicographic chain does. *)
Lemma compareDoctors_chain (criteria : seq SortCriterion) (a b : Doctor) :
  canonical a -> canonical b ->
  (parsedFees a != PInf) || (parsedFees b != PInf) ->
  (parsedExperience a != PInf) || (parsedExperience b != PInf) ->
  num_sign (compareDoctors [seq sortCriterion_str c | c <- criteria] a b)
  = spec_chain criteria a b.
Proof.
rewrite /canonical => ca cb fin fin'; elim: criteria => [|c cs IH] //=.
case: c => /=.
- move: ca cb fin IH {fin'}.
  case: (parsedFees a) => [x|||] //; case: (parsedFees b) => [y|||] //= _ _ _.
  rewrite num_sign_step (Z.compare_sub x y); case: eqP => [->|ne] //=.
  by case: Z.compare_spec.
- move: ca cb fin' IH {fin}.
  case: (parsedExperience a) => [x|||]; rewrite ?andbF //;
    case: (parsedExperience b) => [y|||]; rewrite ?andbF //= => _ _ _.
  rewrite num_sign_step (Z.compare_sub y x); case: eqP => [->|ne] //=.
  by case: Z.compare_spec.
Qed.

Lemma count_le1_eq (T : eqType) (p : pred T) (s : seq T) (a b : T) :
  count p s <= 1 -> a \in s -> b \in s -> p a -> p b -> a = b.
Proof.
rewrite -size_filter => le1 ain bin pa pb.
have: a \in filter p s by rewrite mem_filter pa.
have: b \in filter p s by rewrite mem_filter pb.
case: (filter p s) le1 => [|x [|y r]] //= _.
by rewrite !inE => /eqP -> /eqP ->.
Qed.

Section SpecOrder.

Variable toLowerCase : jsstring -> jsstring.

(** When the active criteria are the typed ones, at most one record of
    the filtered list has a fee that did not parse, and at most one has
    an infinite experience (a digit run too long for a double), the
    sorted output is the filtered list ordered by the lexicographic chain
    of the specification, and the records equal under every criterion
    keep the order they have in the filtered list. *)
Theorem sorted_by_spec_chain (rawData : seq RawDoctorData)
    (searchParams : URLSearchParams) (actions : seq Action)
    (criteria : seq SortCriterion) :
  let st := stateAfter searchParams actions in
  let allDoctors := processedDoctors rawData in
  let filtered := [seq doc <- allDoctors | passesFilters toLowerCase st doc] in
  let out := filteredDoctors toLowerCase allDoctors st in
  sortOptions st = [seq sortCriterion_str c | c <- criteria] ->
  count (fun d => parsedFees d == PInf) filtered <= 1 ->
  count (fun d => parsedExperience d == PInf) filtered <= 1 ->
  [/\ perm_eq out filtered,
      pairwise (spec_le criteria) out
    & forall x, x \in filtered ->
        [seq y <- out | spec_tied criteria x y]
        = [seq y <- filtered | spec_tied criteria x y]].
Proof.
move=> st allDoctors filtered out so le1 le1'.
have nc : consultationType st != Some [::].
  by case/andP: (state_ok_stateAfter searchParams actions).
have cf : all canonical filtered by apply: all_canonical_filter.
have [] := array_sort_canonical (sortOptions st) cf.
rewrite -filteredDoctorsE // -/out => pf pw stable.
have agree a b : a \in filtered -> b \in filtered ->
    num_sign (compareDoctors (sortOptions st) a b) = spec_chain criteria a b.
  move=> ain bin; have ca := allP cf _ ain; have cb := allP cf _ bin.
  case fin: ((parsedFees a != PInf) || (parsedFees b != PInf)); last first.
    move: fin; rewrite -negb_and => /negbFE /andP [fa fb].
    have -> : a = b by apply: count_le1_eq le1 ain bin fa fb.
    by rewrite compareDoctors_refl // spec_chain_refl.
  case fin': ((parsedExperience a != PInf) || (parsedExperience b != PInf)).
    by rewrite so; apply: compareDoctors_chain; rewrite ?fin ?fin'.
  move: fin'; rewrite -negb_and => /negbFE /andP [fa fb].
  have -> : a = b by apply: count_le1_eq le1' ain bin fa fb.
  by rewrite compareDoctors_refl // spec_chain_refl.
have le_agree a b : a \in filtered -> b \in filtered ->
    comesFirst (sortOptions st) a b = spec_le criteria a b.
  by move=> ain bin; rewrite comesFirst_sign agree.
have tied_agree a b : a \in filtered -> b \in filtered ->
    tied (sortOptions st) a b = spec_tied criteria a b.
  move=> ain bin; rewrite /tied !le_agree // /spec_le /spec_tied.
  by rewrite (spec_chain_opp criteria a b); case: (spec_chain criteria a b).
have oin d : d \in out -> d \in filtered by rewrite (perm_mem pf).
split=> //.
- have le_in : {in [in filtered] &,
                  comesFirst (sortOptions st) =2 spec_le criteria}.
    by move=> a b ain bin; apply: le_agree.
  rewrite -(eq_in_pairwise le_in) //.
  by apply/allP => d /oin.
- move=> x xin.
  have -> : [seq y <- out | spec_tied criteria x y]
            = [seq y <- out | tied (sortOptions st) x y].
    by apply: eq_in_filter => y /oin yin; rewrite tied_agree.
  rewrite stable //; apply: eq_in_filter => y yin.
  exact: tied_agree.
Qed.

End SpecOrder.

Lemma sorted_by_spec_chain_scenario :
  let st :=
    stateAfter [::] [:: ToggleSortOption Fees; ToggleSortOption Experience] in
  let allDoctors := processedDoctors [:: raw1; raw2; raw3] in
  let out := filteredDoctors ascii_toLowerCase allDoctors st in
  [/\ perm_eq out allDoctors,
      pairwise (spec_le [:: Fees; Experience]) out
    & forall x, x \in allDoctors ->
        [seq y <- out | spec_tied [:: Fees; Experience] x y]
        = [seq y <- allDoctors | spec_tied [:: Fees; Experience] x y]].
Proof.
exact: (@sorted_by_spec_chain ascii_toLowerCase [:: raw1; raw2; raw3] [::]
          [:: ToggleSortOption Fees; ToggleSortOption Experience]
          [:: Fees; Experience] (erefl _) (erefl _) (erefl _)).
Defined.

(** The end-to-end scenario: fees [Infinity, 300, 300], experience
    [10, 2, 8], criteria [fees, experience]; the two records at 300 come
    first, 8 years before 2 years, and the record without a fee comes
    last. *)
Example end_to_end_scenario :
  filteredDoctors ascii_toLowerCase (processedDoctors [:: raw1; raw2; raw3])
    (stateAfter [::] [:: ToggleSortOption Fees; ToggleSortOption Experience])
  = processedDoctors [:: raw3; raw2; raw1].
Proof. by vm_compute. Qed.

(** ** Further properties of the state and of the normalizer *)

(** Every state of well-formed strings with a non-empty or absent
    consultation filter and a duplicate-free specialty set is the state
    read from some URL. *)
Lemma state_ok_reachable (st : FilterState) :
  state_ok st -> well_formed_state st ->
  exists searchParams, st = stateAfter searchParams [::].
Proof.
by move=> ok wf; exists (urlOfState st); rewrite /stateAfter /= round_trip_ok.
Qed.

(** Toggling a specialty removes it when it is selected and adds it when
    it is not; toggling it twice gives back the same set of selected
    specialties. *)
Theorem toggleSpecialty_twice (specialty : jsstring) (prev : seq jsstring) :
  [/\ forall x, (x \in toggleSpecialty specialty prev)
                = (if x == specialty then specialty \notin prev
                   else x \in prev),
      toggleSpecialty specialty (toggleSpecialty specialty prev) =i prev
    & uniq prev -> uniq (toggleSpecialty specialty prev)].
Proof.
have once s x : (x \in toggleSpecialty specialty s)
    = (if x == specialty then specialty \notin s else x \in s).
  rewrite /toggleSpecialty /set_has /set_delete; case: ifPn => sin.
  - by rewrite mem_filter; case: eqP.
  - by rewrite mem_set_add mem_rcons in_cons; case: eqP => // ->.
split=> //.
- move=> x; rewrite !once; case: eqP => [->|//].
  by rewrite eqxx negbK.
- rewrite /toggleSpecialty /set_has /set_delete => up; case: ifP => _.
  + exact: filter_uniq.
  + exact: set_add_uniq.
Qed.

(** Normalization maps the raw collection record by record, in order:
    as many canonical records as raw ones, with the same identifiers in
    the same order; the consultation modes of a record are those of its
    two flags that are set, video consultation first. *)
Theorem processedDoctors_map (rawData : seq RawDoctorData) :
  [/\ size (processedDoctors rawData) = size rawData,
      [seq id d | d <- processedDoctors rawData]
        = [seq raw_id r | r <- rawData]
    & forall r,
        [/\ (VideoConsult \in consultationModes (processDoctor r))
              = raw_video_consult r,
            (InClinic \in consultationModes (processDoctor r))
              = raw_in_clinic r
          & subseq (consultationModes (processDoctor r))
                   [:: VideoConsult; InClinic]]].
Proof.
split; first by rewrite size_map.
- by rewrite /processedDoctors -map_comp.
- by move=> r /=; case: (raw_video_consult r); case: (raw_in_clinic r).
Qed.

(** ** The examples of the specification *)

(** Sort stability: two records with the same fee and experience keep
    their order under [Fees]. *)
Example sort_stability :
  let A := doctor_example (js "A") (Fin 100) (Fin 5) [::] in
  let B := doctor_example (js "B") (Fin 100) (Fin 5) [::] in
  filteredDoctors ascii_toLowerCase [:: A; B] (withSort [:: Fees])
  = [:: A; B].
Proof. by vm_compute. Qed.

(** Sort precedence: with equal fees the experience decides; swapping the
    criteria changes the result when both differ. *)
Example sort_precedence :
  let A := doctor_example (js "A") (Fin 100) (Fin 5) [::] in
  let B := doctor_example (js "B") (Fin 100) (Fin 9) [::] in
  let C := doctor_example (js "C") (Fin 50) (Fin 1) [::] in
  [/\ filteredDoctors ascii_toLowerCase [:: A; B; C]
        (withSort [:: Fees; Experience]) = [:: C; B; A]
    & filteredDoctors ascii_toLowerCase [:: A; B; C]
        (withSort [:: Experience; Fees]) = [:: B; A; C]].
Proof. by vm_compute. Qed.

(** Filter OR-semantics: a record with two specialties is kept when one of
    them is selected. *)
Example filter_or_semantics :
  let A := doctor_example (js "A") (Fin 100) (Fin 5)
             [:: js "Cardiology"; js "Dermatology"] in
  filteredDoctors ascii_toLowerCase [:: A]
    (stateAfter [::] [:: ToggleSpecialty (js "Dermatology")])
  = [:: A].
Proof. by vm_compute. Qed.

(** Suggestions bound: of five matching records the first three are
    suggested. *)
Example suggestions_bound :
  let d i := doctor_example (js i) (Fin 100) (Fin 5) [::] in
  suggestions ascii_toLowerCase
    [:: d "A"; d "B"; d "C"; d "D"; d "E"]%string (js "dr")
  = [:: d "A"; d "B"; d "C"]%string.
Proof. by vm_compute. Qed.

(** * Properties of the rest of the hook and of the components *)

(** ** Available specialties *)

Lemma str_lt_irr (x : jsstring) : str_lt x x = false.
Proof. by elim: x => [|c x IH] //=; rewrite N.ltb_irrefl eqxx IH. Qed.

Lemma str_lt_trans : transitive str_lt.
Proof.
move=> y x z; elim: x y z => [|c x IH] [|d y] [|e z] //=.
case/orP => [/N.ltb_lt cd|/andP [/eqP -> xy]].
- case/orP => [/N.ltb_lt de|/andP [/eqP <- _]].
  + by apply/orP; left; apply/N.ltb_lt; lia.
  + by apply/orP; left; apply/N.ltb_lt.
- case/orP => [->//|/andP [-> yz]].
  by rewrite (IH _ _ xy yz) orbT.
Qed.

Lemma str_lt_total (x y : jsstring) : [|| str_lt x y, x == y | str_lt y x].
Proof.
elim: x y => [|c x IH] [|d y] //=.
case: (N.ltb_spec c d) => //= dc; case: (N.ltb_spec d c) => //= cd.
  by rewrite !orbT.
have -> : c = d by lia.
rewrite !eqxx /= eqseq_cons eqxx /=.
by case/or3P: (IH y) => ->; rewrite ?orbT.
Qed.

Lemma str_leE (x y : jsstring) : str_le x y = ~~ str_lt y x.
Proof.
rewrite /str_le /default_compare; case xy: (str_lt x y) => /=.
  by case yx: (str_lt y x) => //; have := str_lt_trans xy yx; rewrite str_lt_irr.
by case: (str_lt y x).
Qed.

Lemma str_le_total : total str_le.
Proof.
move=> x y; rewrite !str_leE -negb_and; apply/negP => /andP [yx xy].
by have := str_lt_trans xy yx; rewrite str_lt_irr.
Qed.

Lemma str_le_trans : transitive str_le.
Proof.
move=> y x z; rewrite !str_leE => nyx nzy; apply/negP => zx.
case/or3P: (str_lt_total y z) nzy nyx => [yz _|/eqP -> _|->] //.
- by rewrite (str_lt_trans yz zx).
- by rewrite zx.
Qed.

Lemma specialties_set (allDoctors : seq Doctor) (acc : seq jsstring) :
  foldl (fun set doc => foldl set_add set (specialityNames doc)) acc allDoctors
  = foldl set_add acc (flatten [seq specialityNames doc | doc <- allDoctors]).
Proof.
elim: allDoctors acc => [|doc docs IH] acc //=.
by rewrite foldl_cat IH.
Qed.

(** The list of available specialties holds exactly the specialty names
    that occur in the collection, each once, in strictly ascending order
    of their UTF-16 code units (so every upper-case ASCII name comes
    before every lower-case one); it is the only list that does. *)
Theorem availableSpecialties_spec (allDoctors : seq Doctor) :
  let names := availableSpecialties allDoctors in
  [/\ forall x,
        (x \in names) = has (fun doc => x \in specialityNames doc) allDoctors,
      sorted str_lt names,
      uniq names
    & forall t, sorted str_lt t -> t =i names -> t = names].
Proof.
move=> names.
have mem_names x :
    (x \in names) = has (fun doc => x \in specialityNames doc) allDoctors.
  rewrite /names /availableSpecialties /array_sort mem_sort specialties_set.
  rewrite mem_new_Set_foldl /=; apply/flattenP/hasP.
  - case=> s /mapP [doc din ->] xin; by exists doc.
  - by case=> doc din xin; exists (specialityNames doc) => //; apply: map_f.
have un : uniq names.
  by rewrite /names /availableSpecialties /array_sort sort_uniq specialties_set;
     apply: new_Set_foldl_uniq.
have srt : sorted str_lt names.
  have: sorted str_le names.
    by rewrite /names /availableSpecialties /array_sort;
       apply: (sort_sorted str_le_total).
  rewrite !(sorted_pairwise str_le_trans) ?(sorted_pairwise str_lt_trans).
  move: un; rewrite uniq_pairwise => un pw.
  have: pairwise [rel x y | (x != y) && str_le x y] names.
    by rewrite pairwise_relI un pw.
  apply: sub_pairwise => x y /= /andP [ne]; rewrite str_leE => nyx.
  by case/or3P: (str_lt_total x y) ne nyx => [//|->|->].
split=> // t st et.
exact: (irr_sorted_eq str_lt_trans str_lt_irr st srt et).
Qed.

(** ** Sort options that come from the URL *)

Lemma eq_merge (T : Type) (r r' : rel T) :
  r =2 r' -> merge r =2 merge r'.
Proof.
move=> e; elim=> [|x s1 IH1] //; elim=> [|y s2 IH2] //=.
rewrite e; case: (r' x y); congr (_ :: _); first exact: IH1.
exact: IH2.
Qed.

Lemma eq_sort (T : Type) (r r' : rel T) : r =2 r' -> sort r =1 sort r'.
Proof.
move=> e s; rewrite !sortE.
have push s1 ss : merge_sort_push r s1 ss = merge_sort_push r' s1 ss.
  elim: ss s1 => [|[|z s2] ss IH] s1 //=.
  by rewrite IH (eq_merge e).
have pop s1 ss : merge_sort_pop r s1 ss = merge_sort_pop r' s1 ss.
  by elim: ss s1 => [|s2 ss IH] s1 //=; rewrite IH (eq_merge e).
elim: s [::] => [|x s IH] ss /=; first exact: pop.
by rewrite IH push.
Qed.

Lemma compareDoctors_cons (option : jsstring) (rest : seq jsstring)
    (a b : Doctor) :
  compareDoctors (option :: rest) a b
  = if num_nonzero (criterionDiff option a b) then criterionDiff option a b
    else compareDoctors rest a b.
Proof. by []. Qed.

Lemma compareDoctors_cat (p r : seq jsstring) (a b : Doctor) :
  compareDoctors (p ++ r) a b
  = if has (fun o => num_nonzero (criterionDiff o a b)) p
    then compareDoctors p a b else compareDoctors r a b.
Proof.
elim: p => [|o p IH] //; rewrite cat_cons !compareDoctors_cons /=.
by case: (num_nonzero _).
Qed.

Lemma compareDoctors_set_add (acc opts : seq jsstring) (a b : Doctor) :
  compareDoctors (foldl set_add acc opts) a b
  = compareDoctors (acc ++ opts) a b.
Proof.
elim: opts acc => [|x s IH] acc /=; first by rewrite cats0.
rewrite IH /set_add; case: ifPn => [xin|_]; last by rewrite cat_rcons.
rewrite (compareDoctors_cat acc s) (compareDoctors_cat acc (x :: s)).
case: ifPn => // /hasPn /(_ x xin) nz.
by rewrite compareDoctors_cons; move: nz => /= /negbTE ->.
Qed.

Lemma compareDoctors_criteria (opts : seq jsstring) (a b : Doctor) :
  compareDoctors [seq o <- opts | is_criterion o] a b
  = compareDoctors opts a b.
Proof.
elim: opts => [|o opts IH] //; rewrite [filter _ _]/=; case: ifP => oc.
  by rewrite !compareDoctors_cons IH.
rewrite compareDoctors_cons IH /criterionDiff.
by move: oc; rewrite /is_criterion !inE; case: eqP => //; case: eqP.
Qed.

(** The list the hook returns is the list it returns without sort
    options, sorted. *)
Lemma filteredDoctors_sortE (toLowerCase : jsstring -> jsstring)
    (allDoctors : seq Doctor) (st : FilterState) :
  filteredDoctors toLowerCase allDoctors st
  = array_sort (compareDoctors (sortOptions st))
      (filteredDoctors toLowerCase allDoctors (withSortOptions [::] st)).
Proof.
rewrite /filteredDoctors /=.
by case: (sortOptions st) => [|o so] //=; rewrite array_sort_nil.
Qed.

(** Values of the sort options that are not a criterion, and repeats of a
    criterion, have no effect: the comparator, and with it the list the
    hook returns, are those of the sort options cleaned of unknown values
    and of later repeats, which are distinct criteria. *)
Theorem sortOptions_cleaned (toLowerCase : jsstring -> jsstring)
    (allDoctors : seq Doctor) (st : FilterState) :
  let clean := new_Set [seq o <- sortOptions st | is_criterion o] in
  [/\ all is_criterion clean,
      uniq clean,
      forall a b,
        compareDoctors (sortOptions st) a b = compareDoctors clean a b
    & filteredDoctors toLowerCase allDoctors st
      = filteredDoctors toLowerCase allDoctors (withSortOptions clean st)].
Proof.
move=> clean.
have cmpE a b : compareDoctors (sortOptions st) a b = compareDoctors clean a b.
  by rewrite /clean /new_Set compareDoctors_set_add /= compareDoctors_criteria.
split=> //.
- apply/allP => x; rewrite /clean mem_new_Set mem_filter.
  by case/andP.
- exact: new_Set_uniq.
- rewrite (filteredDoctors_sortE toLowerCase allDoctors st).
  rewrite (filteredDoctors_sortE toLowerCase allDoctors
             (withSortOptions clean st)).
  rewrite /array_sort; apply: eq_sort => a b.
  by rewrite cmpE.
Qed.

(** ** The filters, for every state *)

Lemma filteredDoctors_kept (toLowerCase : jsstring -> jsstring)
    (allDoctors : seq Doctor) (st : FilterState) :
  filteredDoctors toLowerCase allDoctors st
  = array_sort (compareDoctors (sortOptions st))
               [seq doc <- allDoctors | keptBy toLowerCase st doc].
Proof.
rewrite filteredDoctors_sortE; congr array_sort.
rewrite /filteredDoctors /= /keptBy /nameIncludes -filter3.
by case: (str_truthy _); case: (truthy _); case: (0 < size _);
   rewrite /= ?filter_predT.
Qed.

Lemma mem_filteredDoctors (toLowerCase : jsstring -> jsstring)
    (allDoctors : seq Doctor) (st : FilterState) (doc : Doctor) :
  (doc \in filteredDoctors toLowerCase allDoctors st)
  = (doc \in allDoctors) && keptBy toLowerCase st doc.
Proof.
by rewrite filteredDoctors_kept /array_sort mem_sort mem_filter andbC.
Qed.

Lemma processedDoctors_all (P : pred Doctor) (rawData : seq RawDoctorData) :
  (forall rawDoc, P (processDoctor rawDoc)) -> all P (processedDoctors rawData).
Proof.
move=> H; rewrite /processedDoctors all_map.
by apply/(@sub_all _ predT); [move=> r _; apply: H | apply: all_predT].
Qed.

Lemma filteredDoctors_all (toLowerCase : jsstring -> jsstring)
    (P : pred Doctor) (allDoctors : seq Doctor) (st : FilterState) :
  all (fun doc => keptBy toLowerCase st doc ==> P doc) allDoctors ->
  all P (filteredDoctors toLowerCase allDoctors st).
Proof.
move=> /allP H; apply/allP => doc; rewrite mem_filteredDoctors.
by case/andP => /H /implyP.
Qed.

(** The consultation filter against the two flags of the raw records.
    Under "Video Consult" every listed record offers video consultation,
    under "In Clinic" every listed record offers in-clinic consultation,
    and under any other non-empty value, which only the URL can supply,
    no record is listed at all. *)
Theorem consultation_filter_flags (toLowerCase : jsstring -> jsstring)
    (rawData : seq RawDoctorData) (st : FilterState) :
  let out := filteredDoctors toLowerCase (processedDoctors rawData) st in
  [/\ consultationType st = Some VideoConsult -> all video_consult out,
      consultationType st = Some InClinic -> all in_clinic out
    & forall value,
        consultationType st = Some value -> value != [::] ->
        value \notin [:: VideoConsult; InClinic] -> out = [::]].
Proof.
move=> out; split.
- move=> ct; apply/filteredDoctors_all/processedDoctors_all => r.
  rewrite /keptBy ct /=; apply/implyP => /and3P [_ vin _]; move: vin.
  by case: (raw_video_consult r); case: (raw_in_clinic r).
- move=> ct; apply/filteredDoctors_all/processedDoctors_all => r.
  rewrite /keptBy ct /=; apply/implyP => /and3P [_ vin _]; move: vin.
  by case: (raw_video_consult r); case: (raw_in_clinic r).
- move=> value ct ne nin; apply/eqP; rewrite -size_eq0 -all_pred0.
  apply/filteredDoctors_all/processedDoctors_all => r.
  rewrite /keptBy ct /= /str_truthy ne /= implybF.
  apply/negP => /and3P [_ vin _]; move: nin vin; rewrite !inE.
  by case: (raw_video_consult r); case: (raw_in_clinic r);
     rewrite /= ?inE => /norP [/negbTE nv /negbTE ni]; rewrite ?nv ?ni.
Qed.

(** A click on a radio button of the filter panel makes that button's
    mode the consultation filter, whatever the filter was before: none,
    the other mode, or a value taken from the URL.  A click on the button
    that is checked changes nothing, because the handler is only called
    when the checked button changes; so the branch of the handler that
    clears the filter is never taken, and no click on a radio button
    sets the filter to none.  The other parts of the state are
    untouched. *)
Theorem radioClick_consultationType (value : ConsultationMode)
    (st : FilterState) :
  let st' := radioClick value st in
  [/\ consultationType st' = Some (consultationMode_str value),
      radioChecked value st -> st' = st,
      ~~ radioChecked value st ->
        handleConsultationChange value (consultationType st) = Some value,
      consultationType st' \in [:: Some VideoConsult; Some InClinic]
    & [/\ searchTerm st' = searchTerm st,
          selectedSpecialties st' = selectedSpecialties st
        & sortOptions st' = sortOptions st]].
Proof.
cbv zeta; rewrite /radioClick /handleConsultationChange /radioChecked.
rewrite [Some _ == consultationType st]eq_sym.
case: ifP => [/eqP e|ne] /=; split=> //.
- by rewrite e {e}; case: value.
- by rewrite ne.
- by rewrite ne; case: value {ne}.
Qed.

(** Only the set of selected specialties matters to the list, not the
    order in which they were selected; and with one specialty selected
    already, selecting another never removes a record from the list. *)
Theorem specialties_filter_set (toLowerCase : jsstring -> jsstring)
    (allDoctors : seq Doctor) (st : FilterState) :
  [/\ forall specialties,
        selectedSpecialties st =i specialties ->
        filteredDoctors toLowerCase allDoctors (withSpecialties specialties st)
        = filteredDoctors toLowerCase allDoctors st
    & forall specialty,
        specialty \notin selectedSpecialties st ->
        selectedSpecialties st != [::] ->
        {subset filteredDoctors toLowerCase allDoctors st
           <= filteredDoctors toLowerCase allDoctors
                (handleToggleSpecialty specialty st)}].
Proof.
split.
- move=> sp e; rewrite !filteredDoctors_kept /=; congr array_sort.
  apply: eq_filter => doc; rewrite /keptBy /= /set_has.
  have -> : (0 < size sp) = (0 < size (selectedSpecialties st)).
    case: sp e => [|x sp] e; case: (selectedSpecialties st) e => [|y s] e //.
    + by have := e y; rewrite mem_head.
    + by have := e x; rewrite mem_head.
  by congr [&& _, _ & _ ==> _]; apply: eq_has => x; rewrite e.
- move=> x nin ne doc; rewrite !mem_filteredDoctors.
  case/andP => -> /and3P [k1 k2 k3] /=; rewrite /keptBy /= k1 k2 /=.
  rewrite /toggleSpecialty /set_has (negbTE nin) /set_add (negbTE nin).
  rewrite size_rcons /=; move: k3; rewrite lt0n size_eq0 ne /= /set_has.
  case/hasP => y yin ys; apply/hasP; exists y => //.
  by rewrite mem_rcons inE ys orbT.
Qed.

(** One toggle of a sort criterion flips whether it is active and leaves
    the other values of the list as they are and in their order; after
    the toggle the criterion occurs at most once, also in a list that the
    URL had filled with repeats. *)
Theorem toggleSortOption_membership (option : jsstring)
    (prev : seq jsstring) :
  let next := toggleSortOption option prev in
  [/\ (option \in next) = (option \notin prev),
      forall other, other != option -> (other \in next) = (other \in prev),
      [seq item <- next | item != option] = [seq item <- prev | item != option]
    & count_mem option next <= 1].
Proof.
move=> next; rewrite /next toggleSortOptionE; case: ifPn => [oin|nin].
- split=> //.
  + by rewrite mem_filter eqxx.
  + by move=> other ne; rewrite mem_filter ne.
  + by rewrite -filter_predI; apply: eq_filter => x /=; rewrite andbb.
  + have /count_memPn -> // : option \notin [seq item <- prev | item != option].
    by rewrite mem_filter eqxx.
- split=> //.
  + by rewrite mem_rcons mem_head.
  + by move=> other ne; rewrite mem_rcons inE (negbTE ne).
  + by rewrite filter_rcons eqxx.
  + by rewrite -cats1 count_cat /= eqxx (count_memPn nin).
Qed.

(** ** The query parameters the hook writes *)





(** ** Test identifiers of the specialty checkboxes *)

Lemma id_char_not_separator (c : codeunit) :
  is_id_char c -> is_separator c = false.
Proof.
move=> ic; apply/negbTE/negP => /orP [ws|/eqP e].
- move: ic; rewrite /is_id_char /is_alnum /hyphen.
  move: ws; rewrite /is_whitespace => /orP [|/andP [/N.leb_le lo _]].
  + by rewrite !inE; do !(case/orP; [by move/eqP-> |]); move/eqP->.
  + rewrite -!orbA => /or4P [/andP [_ /N.leb_le hi]|/andP [_ /N.leb_le hi]
                            |/is_digitP [_ hi]|/eqP e]; lia.
- by move: ic; rewrite e.
Qed.

Lemma replace_runs_clean (p : pred codeunit) (by_ : jsstring) (b : bool)
    (s : jsstring) :
  all (predC p) s -> replace_runs p by_ b s = s.
Proof.
elim: s b => [|c s IH] b //= /andP [/negbTE -> cs].
by rewrite IH.
Qed.

Lemma size_replace_runs (p : pred codeunit) (c : codeunit) (b : bool)
    (s : jsstring) :
  size (replace_runs p [:: c] b s) <= size s.
Proof.
elim: s b => [|d s IH] b //=; case: (p d) => /=; last exact: IH.
case: b => /=; last exact: IH.
exact: leq_trans (IH true) (leqnSn _).
Qed.

Lemma alnum_replace_runs (b : bool) (s : jsstring) :
  [seq c <- replace_runs is_separator [:: hyphen] b s | is_alnum c]
  = [seq c <- s | is_alnum c].
Proof.
elim: s b => [|c s IH] b //=.
case sc: (is_separator c) => /=; last by rewrite IH.
have -> : is_alnum c = false.
  apply/negbTE/negP => ac.
  by move: (@id_char_not_separator c); rewrite /is_id_char ac sc => /(_ isT).
by case: b; rewrite /= IH.
Qed.

(** The test identifier of a specialty checkbox is [filter-specialty-]
    followed by letters, digits and hyphens only, at most as many as the
    name has code units; it keeps every ASCII letter and digit of the
    name, in order.  A name of letters, digits and hyphens is kept as it
    is, so formatting a formatted name changes nothing. *)
Theorem formatSpecialtyTestId_spec (specialty : jsstring) :
  let formatted :=
    drop (size test_id_prefix) (formatSpecialtyTestId specialty) in
  [/\ formatSpecialtyTestId specialty = test_id_prefix ++ formatted
       /\ all is_id_char (formatSpecialtyTestId specialty),
      size formatted <= size specialty,
      [seq c <- formatted | is_alnum c] = [seq c <- specialty | is_alnum c],
      (all is_id_char specialty -> formatted = specialty)
    & formatSpecialtyTestId formatted = formatSpecialtyTestId specialty].
Proof.
rewrite /formatSpecialtyTestId drop_size_cat //.
set t := [seq c <- _ | is_id_char c].
have clean (s : jsstring) : all is_id_char s ->
    [seq c <- replace_runs is_separator [:: hyphen] false s | is_id_char c]
    = s.
  move=> ids; rewrite replace_runs_clean; last exact/all_filterP.
  by apply: sub_all ids => c /id_char_not_separator /= ->.
have idt : all is_id_char t by exact: filter_all.
split=> //.
- apply: leq_trans (size_replace_runs is_separator hyphen false specialty).
  by rewrite size_filter count_size.
- rewrite -(alnum_replace_runs false specialty) /t -filter_predI.
  by apply: eq_filter => c /=; rewrite /is_id_char; case: (is_alnum c).
- by move=> ids; rewrite /t clean.
- by rewrite clean.
Qed.

(** ** The numbers on the card *)

Lemma digits_ofS (fuel : nat) (n : N) :
  digits_of fuel.+1 n =
  rcons (if (n <? 10)%num then [::] else digits_of fuel (n / 10)%num)
        (48 + n mod 10)%num.
Proof. by rewrite -cats1. Qed.

Lemma digits_ofP (fuel : nat) (n : N) :
  (n < 2 ^ N.of_nat fuel)%num ->
  [/\ all is_digit (digits_of fuel.+1 n), digits_of fuel.+1 n != [::]
    & dec_value (digits_of fuel.+1 n) = Z.of_N n].
Proof.
elim: fuel n => [|fuel IH] n lt.
  have -> : n = 0%num by move: lt; rewrite /=; lia.
  by [].
rewrite digits_ofS all_rcons dec_value_rcons.
have lt2 : (n < 2 * 2 ^ N.of_nat fuel)%num.
  by move: lt; rewrite Nnat.Nat2N.inj_succ N.pow_succ_r'.
have nE : (n = 10 * (n / 10) + n mod 10)%num by exact: N.div_mod'.
have mlt : (n mod 10 < 10)%num by exact: N.mod_upper_bound.
move: (n mod 10)%num (n / 10)%num (2 ^ N.of_nat fuel)%num nE mlt lt2 IH {lt}.
move=> m q P nE mlt lt2 IH.
have d10 : is_digit (48 + m)%num by apply/is_digitP; lia.
have v10 : digit_val (48 + m)%num = Z.of_N m by rewrite /digit_val; lia.
set X := if _ then _ else _.
have [dX vX] : all is_digit X /\ dec_value X = Z.of_N q.
  rewrite /X; case: N.ltb_spec => small.
  - by split=> //; rewrite (_ : dec_value [::] = 0%Z) //; lia.
  - by have [|dd _ val] := IH q; first lia.
split.
- by rewrite d10 dX.
- by case: X {dX vX}.
- by rewrite vX v10; lia.
Qed.

Lemma digitsP (n : N) :
  [/\ all is_digit (digits n), digits n != [::]
    & dec_value (digits n) = Z.of_N n].
Proof.
apply: digits_ofP; rewrite Nnat.N2Nat.id; exact: N.size_gt.
Qed.

Lemma size_digits_of (fuel k : nat) (n : N) :
  0 < k -> (n < 10 ^ N.of_nat k)%num -> size (digits_of fuel n) <= k.
Proof.
elim: fuel k n => [|fuel IH] k n k0 lt //.
rewrite digits_ofS size_rcons; case: N.ltb_spec => small //.
case: k k0 lt => [|k] // _; rewrite Nnat.Nat2N.inj_succ N.pow_succ_r' => lt.
have nE : (n = 10 * (n / 10) + n mod 10)%num by exact: N.div_mod'.
rewrite ltnS; apply: IH.
- by case: k lt => [|k] //; rewrite /=; lia.
- by move: (n mod 10)%num (n / 10)%num (10 ^ N.of_nat k)%num nE lt; lia.
Qed.

(** Below 2^53 an integer is read by no other integer. *)
Lemma reads_exact (v c : Z) :
  (0 <= v < 2 ^ 53)%Z -> reads_as v c -> c = v.
Proof.
move=> [v0 lt]; rewrite /reads_as.
case: (round_doubleP c) => [[w -> [_ _ _ sm bg]]|[-> _]|[-> _]] //.
move=> /eqP [e]; move: sm bg; rewrite e => sm bg.
have [/sm -> //|/bg] : (Z.abs c < 2 ^ 53 \/ 2 ^ 53 <= Z.abs c)%Z by lia.
by lia.
Qed.

Lemma shortest_from_small (v : Z) (j : nat) :
  (0 <= v < 2 ^ 53)%Z -> shortest_from v j = v.
Proof.
move=> sm; elim: j => [|j IH] //.
rewrite [shortest_from _ _]/=.
set p := Z.pow_pos 10 _.
have p0 : (0 < p)%Z by rewrite /p Z.pow_pos_fold; apply: Z.pow_pos_nonneg.
case lo: (reads_as v _); case hi: (reads_as v _) => //.
- by have := reads_exact sm lo; have := reads_exact sm hi; lia.
- exact: reads_exact lo.
- exact: reads_exact hi.
Qed.

Lemma numberToString_plain (z : Z) :
  (0 <= z)%Z -> isSafeInteger (Fin z) ->
  numberToString (Fin z) = digits (Z.to_N z).
Proof.
move=> z0 /Z.ltb_lt lt; rewrite /numberToString.
have -> : (z <? 0)%Z = false by apply/Z.ltb_ge.
have sm : (0 <= z < 2 ^ 53)%Z by lia.
rewrite /naturalToString /shortest (shortest_from_small _ sm).
rewrite (@size_digits_of _ 21) //.
have -> : (10 ^ N.of_nat 21)%num = Z.to_N (10 ^ 21) by [].
by move: lt; rewrite /=; lia.
Qed.

(** The digits a safe integer is written with are read as that integer. *)
Lemma round_double_numberToString (z : Z) :
  (0 <= z)%Z -> isSafeInteger (Fin z) ->
  [/\ all is_digit (numberToString (Fin z)), numberToString (Fin z) != [::]
    & round_double (dec_value (numberToString (Fin z))) = Fin z].
Proof.
move=> z0 sf; rewrite (numberToString_plain z0 sf).
have [dd ne val] := digitsP (Z.to_N z); split=> //.
rewrite val Z2N.id //; apply: round_double_small.
by move/Z.ltb_lt: sf.
Qed.

Lemma parseFee_digits (pre ds : jsstring) :
  ~~ has (fun c => is_digit c || (c == dot)) pre ->
  all is_digit ds -> ds != [::] ->
  parseFee (pre ++ ds) = round_double (dec_value ds).
Proof.
move=> npre dd ne; rewrite parseFee_remainder /= filter_cat.
have -> : [seq c <- pre | is_digit c || (c == dot)] = [::].
  by apply/eqP; rewrite -size_eq0 size_filter eqn0Ngt -has_count.
have -> : [seq c <- ds | is_digit c || (c == dot)] = ds.
  by apply/all_filterP; apply: sub_all dd => c ->.
by rewrite cat0s digit_prefix_all //; case: ds ne {dd}.
Qed.

(** What a canonical record holds is what its card shows: when the
    parsed fee is the sentinel or a safe integer (below 2^53), parsing
    the text of the fee line, or its title, gives the parsed fee back;
    N/A and Not Available parse to the sentinel. *)
Theorem card_fee_round_trip (doctor : Doctor) :
  canonical doctor ->
  isSafeInteger (parsedFees doctor) || (parsedFees doctor == PInf) ->
  parseFee (feeText doctor) = parsedFees doctor
  /\ parseFee (feeTitle doctor) = parsedFees doctor.
Proof.
rewrite /canonical /feeText /feeTitle => /andP [cf _].
case: (parsedFees doctor) cf => [z /Z.leb_le z0|_ _| |] //.
rewrite orbF => sf; rewrite (_ : (Fin z == PInf) = false) //.
have [dd ne val] := round_double_numberToString z0 sf.
split.
- by rewrite (@parseFee_digits [:: rupee; 32%num]).
- by rewrite (@parseFee_digits (js "Consultation Fee: " ++ [:: rupee])).
Qed.

(** The text of the experience line of a canonical record, and its title,
    parse back to the parsed experience when it is a safe integer (below
    2^53).  When it is infinite (the digit run was too long for a
    double), the card shows "Infinity years", which parses to 0. *)
Theorem card_experience_round_trip (doctor : Doctor) :
  canonical doctor ->
  (isSafeInteger (parsedExperience doctor) ->
     parseExperience (experienceText doctor) = parsedExperience doctor
     /\ parseExperience (experienceTitle doctor) = parsedExperience doctor)
  /\ (parsedExperience doctor = PInf ->
        experienceText doctor = js "Infinity years"
        /\ parseExperience (experienceText doctor) = Fin 0).
Proof.
rewrite /canonical /experienceText /experienceTitle => /andP [_].
case: (parsedExperience doctor) => [z /Z.leb_le z0| | |] //; split=> //.
move=> sf; have [dd ne val] := round_double_numberToString z0 sf.
by split; rewrite (@parseExperience_run [::]).
Qed.

(** The cards of the records with the fee text "₹ 300" and with the
    experience text "8 Years of experience". *)
Lemma card_fee_round_trip_300 :
  parseFee (feeText (processDoctor raw2)) = Fin 300
  /\ parseFee (feeTitle (processDoctor raw2)) = Fin 300.
Proof.
exact: (@card_fee_round_trip (processDoctor raw2) (erefl _) (erefl _)).
Defined.

Lemma card_experience_round_trip_8 :
  parseExperience (experienceText (processDoctor raw3)) = Fin 8
  /\ parseExperience (experienceTitle (processDoctor raw3)) = Fin 8.
Proof.
exact: (proj1 (@card_experience_round_trip (processDoctor raw3) (erefl _))
          (erefl _)).
Defined.

(** From 10^21 on a number is shown in exponent notation, and the text
    of the card no longer parses back to it. *)
Example card_fee_exponent :
  let doctor := doctor_example (js "1") (Fin (10 ^ 21)) (Fin 0) [::] in
  [/\ canonical doctor, feeText doctor = rupee :: js " 1e+21"
    & parseFee (feeText doctor) = Fin 121].
Proof. by vm_compute. Qed.

Example card_texts :
  let doctor := processDoctor raw2 in
  [/\ feeText doctor = rupee :: js " 300",
      feeTitle doctor = js "Consultation Fee: " ++ rupee :: js "300",
      experienceText doctor = js "2 years",
      feeText (processDoctor raw1) = js "N/A"
    & formatSpecialtyTestId (js "General Physician / ENT (adults)")
      = js "filter-specialty-General-Physician-ENT-adults"].
Proof. by vm_compute. Qed.

(** ** The search box and the page *)

Lemma activeSuggestionIndex_sync (term : jsstring) (st : NavbarState) :
  activeSuggestionIndex (syncSearchTerm term st) = activeSuggestionIndex st.
Proof. by rewrite /syncSearchTerm; case: ifP. Qed.

Lemma debounceTimer_sync (term : jsstring) (st : NavbarState) :
  debounceTimer (syncSearchTerm term st) = debounceTimer st.
Proof. by rewrite /syncSearchTerm; case: ifP. Qed.

Lemma showSuggestions_sync (term : jsstring) (st : NavbarState) :
  showSuggestions (syncSearchTerm term st) = showSuggestions st.
Proof. by rewrite /syncSearchTerm; case: ifP. Qed.

Lemma localSearchTerm_sync (term : jsstring) (st : NavbarState) :
  localSearchTerm (syncSearchTerm term st) = term.
Proof. by rewrite /syncSearchTerm; case: ifP => //= /negbFE /eqP. Qed.

Section PageProperties.

Variable toLowerCase : jsstring -> jsstring.
Variable API_URL : option jsstring.
Variable fetch : jsstring -> FetchResult.

Local Abbreviation step := (step toLowerCase API_URL fetch).
Local Abbreviation pageAfter := (pageAfter toLowerCase API_URL fetch).
Local Abbreviation navbar_handler := (navbar_handler toLowerCase).
Local Abbreviation page_suggestions := (page_suggestions toLowerCase).

Lemma pageAfter_ind (P : Page -> Prop) :
  (forall searchParams, P (page_start searchParams)) ->
  (forall p e, P p -> P (step p e)) ->
  forall searchParams events, P (pageAfter searchParams events).
Proof.
move=> P0 PS searchParams events; rewrite /pageAfter.
elim/last_ind: events => [|events e IH]; first exact: P0.
by rewrite -cats1 foldl_cat /=; apply: PS.
Qed.

Lemma size_suggestions (docs : seq Doctor) (term : jsstring) :
  size (suggestions toLowerCase docs term) <= MAX_SUGGESTIONS.
Proof.
rewrite /suggestions; case: (trim term) => [|c s] //.
by rewrite size_take; case: ltnP.
Qed.

(** *** What one event changes *)

Lemma step_hookState (p : Page) (e : Event) :
  hookState (step p e)
  = foldl applyCall (panel_handler p e) (navbar_handler p e).2.
Proof. by rewrite /step; case: (navbar_handler _ _). Qed.

Lemma step_activeSuggestionIndex (p : Page) (e : Event) :
  activeSuggestionIndex (navbar (step p e))
  = activeSuggestionIndex (navbar_handler p e).1.
Proof.
rewrite /step; case: (navbar_handler _ _) => nav calls /=.
by case: ifP; rewrite ?activeSuggestionIndex_sync.
Qed.

Lemma step_debounceTimer (p : Page) (e : Event) :
  debounceTimer (navbar (step p e)) = debounceTimer (navbar_handler p e).1.
Proof.
rewrite /step; case: (navbar_handler _ _) => nav calls /=.
by case: ifP; rewrite ?debounceTimer_sync.
Qed.

Lemma step_showSuggestions (p : Page) (e : Event) :
  showSuggestions (navbar (step p e))
  = showSuggestions (navbar_handler p e).1.
Proof.
rewrite /step; case: (navbar_handler _ _) => nav calls /=.
by case: ifP; rewrite ?showSuggestions_sync.
Qed.

Lemma step_localSearchTerm (p : Page) (e : Event) :
  localSearchTerm (navbar (step p e))
  = if searchTerm (hookState (step p e)) != searchTerm (hookState p)
    then searchTerm (hookState (step p e))
    else localSearchTerm (navbar_handler p e).1.
Proof.
rewrite /step; case: (navbar_handler _ _) => nav calls /=.
by case: ifP; rewrite ?localSearchTerm_sync.
Qed.

Lemma handleKeyDown_index (suggestions : seq Doctor) (key : jsstring)
    (st : NavbarState) :
  let i := activeSuggestionIndex st in
  let i' := activeSuggestionIndex (handleKeyDown suggestions key st).1 in
  let n := array_length suggestions in
  [\/ i' = i, i' = (-1)%Z
    | (0 < n)%Z /\ [\/ i' = (n - 1)%Z, (0 < i)%Z /\ i' = (i - 1)%Z, i' = 0%Z
                     | (i < n - 1)%Z /\ i' = (i + 1)%Z]].
Proof.
rewrite /handleKeyDown; case: ifP => _ /=; first by constructor 1.
case: ifP => [/andP [_ /Z.ltb_lt n0]|_] /=; last by constructor 1.
case: ifP => _ /=.
  case: ifP => _ /=; last by constructor 1.
  by case: (array_get _ _) => [d|] /=; [constructor 2|constructor 1].
case: ifP => _ /=.
  constructor 3; split=> //.
  by case: Z.leb_spec => ?; [constructor 1|constructor 2; split=> //; lia].
case: ifP => _ /=.
  constructor 3; split=> //.
  rewrite Z.geb_leb.
  by case: Z.leb_spec => ?; [constructor 3|constructor 4; split=> //; lia].
case: ifP => _ /=; first by constructor 2.
by constructor 1.
Qed.

Lemma step_index (p : Page) (e : Event) :
  let i := activeSuggestionIndex (navbar p) in
  let i' := activeSuggestionIndex (navbar (step p e)) in
  let n := array_length (page_suggestions p) in
  [\/ i' = i, i' = (-1)%Z
    | (0 < n)%Z /\ [\/ i' = (n - 1)%Z, (0 < i)%Z /\ i' = (i - 1)%Z, i' = 0%Z
                     | (i < n - 1)%Z /\ i' = (i + 1)%Z]].
Proof.
rewrite step_activeSuggestionIndex.
case: e => [v|k| |idx| | |m|s|c| |] /=; try by constructor 1.
- by case: ifP => _; [constructor 1|constructor 2].
- exact: handleKeyDown_index.
- by rewrite /handleInputFocus; case: ifP => _; constructor 1.
- case: ifP => _; last by constructor 1.
  by case: (ohead _) => [d|]; [constructor 2|constructor 1].
- by rewrite /debounceElapsed; case: (debounceTimer _) => [v|]; constructor 1.
Qed.

(** The highlighted suggestion: in every reachable page the index is -1
    (none) or the index of one of the at most three suggestions. *)
Theorem activeSuggestionIndex_range (searchParams : URLSearchParams)
    (events : seq Event) :
  let p := pageAfter searchParams events in
  (-1 <= activeSuggestionIndex (navbar p) < Z.of_nat MAX_SUGGESTIONS)%Z.
Proof.
apply: (@pageAfter_ind (fun p =>
  (-1 <= activeSuggestionIndex (navbar p) < Z.of_nat MAX_SUGGESTIONS)%Z))
  => [sp|p e IH] //.
have := size_suggestions (allDoctors (load p)) (searchTerm (hookState p)).
rewrite -/(page_suggestions p).
move/leP/Nat2Z.inj_le; rewrite -/(array_length (page_suggestions p)).
have := step_index p e; move: (array_length _) => n /=.
move: (activeSuggestionIndex _) (activeSuggestionIndex _) IH => j' j.
rewrite /MAX_SUGGESTIONS => IH.
by case=> [->|->|[n0 [->|[j0 ->]|->|[jn ->]]]] //; lia.
Qed.

(** *** The input box and the search term *)

Lemma handleKeyDown_cases (suggestions : seq Doctor) (key : jsstring)
    (st : NavbarState) :
  let r := handleKeyDown suggestions key st in
  [/\ r.2 = [::], localSearchTerm r.1 = localSearchTerm st
     & debounceTimer r.1 = debounceTimer st]
  \/ exists term,
       [/\ r.2 = [:: OnSearchSubmit term], localSearchTerm r.1 = term
          & debounceTimer r.1 = None].
Proof.
rewrite /handleKeyDown; case: ifP => _ /=.
  by right; exists (localSearchTerm st).
case: ifP => _ /=; last by left.
case: ifP => _ /=.
  case: ifP => _ /=; last by left.
  case: (array_get _ _) => [d|] /=; last by left.
  by right; exists (name d).
by do 3![case: ifP => _ /=; first by left]; left.
Qed.

Lemma synced_step (p : Page) (e : Event) : synced p -> synced (step p e).
Proof.
rewrite /synced step_debounceTimer step_localSearchTerm step_hookState.
case: p => hs ld [l sh i t] /=.
case: e => [v|k| |idx| | |m|s|c| |] /=; rewrite ?eqxx //.
- by case: (v == l) => /=; rewrite eqxx //; left.
- have := handleKeyDown_cases (page_suggestions (mkPage hs ld
            (mkNavbarState l sh i t))) k (mkNavbarState l sh i t).
  case: (handleKeyDown _ _ _) => nav calls /=.
  case=> [[-> -> ->]|[term [-> -> ->]]] /=; first by rewrite eqxx.
  by case: ifP.
- by rewrite /handleInputFocus; case: ifP => _ /=; rewrite eqxx.
- case: sh => /=; last by rewrite eqxx.
  case: (ohead _) => [d|] /=; last by rewrite eqxx.
  by case: ifP.
- case: t => [v|] /=; last by rewrite eqxx.
  by case: eqP => [<- [|]|] //=.
- by rewrite /radioClick; case: (radioChecked _ _) => /=; rewrite eqxx.
- by case: (s \in _) => /=; rewrite eqxx.
- case: eqP => [<-|_] //=.
  by case: t => [v|] //; right.
Qed.

(** In every reachable page the input box shows the search term of the
    hook, unless a debounce timer is pending; then it shows the value the
    timer will pass on, or the search term of the hook. *)
Theorem navbar_synced (searchParams : URLSearchParams) (events : seq Event) :
  synced (pageAfter searchParams events).
Proof. by apply: (@pageAfter_ind synced) => // p e; exact: synced_step. Qed.

End PageProperties.
